(** * File validation and the product image collection

    A shallow embedding of [lib/fileValidation.ts] (signatures, the
    validation loop, duplicate grouping, file extensions) and of the
    collection handlers of [components/product/ProductImageManager.tsx]
    (adding files, removing an image, choosing the featured image),
    together with the properties the specification states about them.

    Conventions.  A JavaScript [number] that holds an integer (a byte
    size, a timestamp, a count) is a [Z]; a [string] is a Rocq [string],
    one character per code unit; an [Array] is a [list] whose [push]
    appends at the end; a [Set<string>] is a [gset string]; a
    [Map<string, File[]>] is a [gmap string (list File)]; an optional
    field is an [option]. *)

From stdpp Require Import gmap strings list fin_maps pretty.
From Stdlib Require Import ZArith Lia Ascii Sorted.

Open Scope string_scope.
Open Scope list_scope.
Open Scope Z_scope.

(** ** Data model *)

(** The metadata of a browser [File]: the fields the code reads. *)
Module File.
Record t : Type := mk
  { name : string;
    size : Z;
    type : string;
    lastModified : Z }.
End File.
Abbreviation File := File.t.

(** One element of [FileValidationResult.invalid]. *)
Module InvalidEntry.
Record t : Type := mk
  { name : string;
    reason : string }.
End InvalidEntry.
Abbreviation InvalidEntry := InvalidEntry.t.

Record FileValidationResult : Type := mkResult
  { validFiles : list File;
    duplicates : list string;
    invalid : list InvalidEntry }.

Record FileValidationOptions : Type := mkOptions
  { maxFileSize : option Z;
    allowedTypes : option (list string);
    existingFiles : option (list File) }.

(** ** String primitives of the host language *)

(** [s.split(sep)[0]]: the part of [s] before the first [sep], all of [s]
    when [sep] does not occur. *)
Fixpoint split_head (sep : ascii) (s : string) : string :=
  match s with
  | EmptyString => EmptyString
  | String c rest =>
      if Ascii.eqb c sep then EmptyString else String c (split_head sep rest)
  end.

(** [s.startsWith(p)]. *)
Definition startsWith (s p : string) : bool := String.prefix p s.

(** [s.lastIndexOf(c)] for a one-character [c]: the greatest index of [c]
    in [s], [-1] when there is none. *)
Fixpoint lastIndexOf (c : ascii) (s : string) : Z :=
  match s with
  | EmptyString => -1
  | String d rest =>
      let r := lastIndexOf c rest in
      if 0 <=? r then 1 + r
      else if Ascii.eqb d c then 0 else -1
  end.

Fixpoint string_drop (n : nat) (s : string) : string :=
  match n, s with
  | O, _ => s
  | S _, EmptyString => EmptyString
  | S m, String _ rest => string_drop m rest
  end.

(** [s.slice(start)]: a negative [start] counts from the end, and the
    start position is clamped to [0 .. s.length]. *)
Definition slice_from (start : Z) (s : string) : string :=
  let len := Z.of_nat (String.length s) in
  let from := if start <? 0 then Z.max (len + start) 0 else Z.min start len in
  string_drop (Z.to_nat from) s.

(** [arr.slice(0, end)] with the same clamping. *)
Definition slice_to {A : Type} (end_ : Z) (arr : list A) : list A :=
  let len := Z.of_nat (length arr) in
  let final := if end_ <? 0 then Z.max (len + end_) 0 else Z.min end_ len in
  take (Z.to_nat final) arr.

(** [x >>> 0]: the integer [x] as an unsigned 32-bit number. *)
Definition to_uint32 (x : Z) : Z := x mod 2 ^ 32.

(** ** lib/fileValidation.ts *)

(** [`${file.name}|${file.size}|${file.type}|${file.lastModified}`];
    integers print in decimal. *)
Definition createFileSignature (file : File) : string :=
  File.name file +:+ "|" +:+ pretty (File.size file) +:+ "|" +:+
  File.type file +:+ "|" +:+ pretty (File.lastModified file).

Definition default_allowedTypes : list string :=
  ["image/png"; "image/jpeg"; "image/webp"; "image/jpg"].

Definition sizeReason (maxFileSize : Z) : string :=
  "Tamanho excede " +:+ pretty maxFileSize +:+ "MB".

Definition typeReason : string := "Tipo de arquivo não permitido".

(** The test of the type check:
    [file.type.startsWith(type.split('/')[0]) || file.type === type]. *)
Definition type_matches (file : File) (type : string) : bool :=
  startsWith (File.type file) (split_head "/" type)
  || bool_decide (File.type file = type).

(** State of the [for] loop of [validateFiles]: the result under
    construction and [processedSignatures]. *)
Definition LoopState : Type := FileValidationResult * gset string.

Definition push_invalid (e : InvalidEntry) (r : FileValidationResult) :=
  {| validFiles := validFiles r;
     duplicates := duplicates r;
     invalid := invalid r ++ [e] |}.

Definition push_duplicate (n : string) (r : FileValidationResult) :=
  {| validFiles := validFiles r;
     duplicates := duplicates r ++ [n];
     invalid := invalid r |}.

Definition push_valid (f : File) (r : FileValidationResult) :=
  {| validFiles := validFiles r ++ [f];
     duplicates := duplicates r;
     invalid := invalid r |}.

(** One iteration of the loop; each [continue] is a branch that returns. *)
Definition validate_file (maxSize : Z) (allowed : list string)
    (existingSignatures : gset string) (st : LoopState) (file : File)
  : LoopState :=
  let '(result, processedSignatures) := st in
  let fileSignature := createFileSignature file in
  if File.size file >? maxSize * 1024 * 1024 then
    (push_invalid (InvalidEntry.mk (File.name file) (sizeReason maxSize)) result,
     processedSignatures)
  else if negb (existsb (type_matches file) allowed) then
    (push_invalid (InvalidEntry.mk (File.name file) typeReason) result,
     processedSignatures)
  else if bool_decide (fileSignature ∈ existingSignatures) then
    (push_duplicate (File.name file) result, processedSignatures)
  else if bool_decide (fileSignature ∈ processedSignatures) then
    (push_duplicate (File.name file) result, processedSignatures)
  else
    (push_valid file result, {[fileSignature]} ∪ processedSignatures).

Definition empty_result : FileValidationResult :=
  {| validFiles := []; duplicates := []; invalid := [] |}.

(** [validateFiles(files, options)].  The function is [async] but awaits
    nothing, so its promise resolves to the value computed here. *)
Definition validateFiles (files : list File) (options : FileValidationOptions)
  : FileValidationResult :=
  let maxSize := default 5 (maxFileSize options) in
  let allowed := default default_allowedTypes (allowedTypes options) in
  let existing := default [] (existingFiles options) in
  let existingSignatures : gset string :=
    list_to_set (createFileSignature <$> existing) in
  fst (fold_left (validate_file maxSize allowed existingSignatures)
         files (empty_result, ∅)).

Definition no_options : FileValidationOptions :=
  {| maxFileSize := None; allowedTypes := None; existingFiles := None |}.


(** [findDuplicatesInArray(files)].  The first [forEach] groups the files
    by signature ([signatureMap.get(signature) || []], then [push] and
    [set]); the second keeps the groups of more than one file. *)
Definition group_by_signature (files : list File) : gmap string (list File) :=
  fold_left
    (fun (signatureMap : gmap string (list File)) file =>
       let signature := createFileSignature file in
       let existing : list File := default [] (signatureMap !! signature) in
       <[signature := existing ++ [file]]> signatureMap)
    files ∅.

Definition findDuplicatesInArray (files : list File) : gmap string (list File) :=
  filter (fun entry : string * list File => (1 < length entry.2)%nat)
    (group_by_signature files).

(** [getFileExtension(filename)]:
    [filename.slice((filename.lastIndexOf('.') - 1 >>> 0) + 2)]; the
    subtraction binds tighter than [>>>]. *)
Definition getFileExtension (filename : string) : string :=
  slice_from (to_uint32 (lastIndexOf "." filename - 1) + 2) filename.

(** *** Content hash *)

(** What an awaited call of the platform does: it returns a value or it
    throws (a rejected promise throws at its [await]). *)
Inductive Completion (A : Type) : Type :=
  | Normal (a : A)
  | Throw (error : string).
Arguments Normal {A} a.
Arguments Throw {A} error.

#[global] Instance Completion_ret : MRet Completion := fun A a => Normal a.

#[global] Instance Completion_bind : MBind Completion := fun A B k c =>
  match c with
  | Normal a => k a
  | Throw e => Throw e
  end.

(** [try { body } catch (error) { handler(error) }]. *)
Definition try_catch {A : Type} (body : Completion A)
    (handler : string -> Completion A) : Completion A :=
  match body with
  | Normal a => Normal a
  | Throw e => handler e
  end.

Definition hex_digit (d : N) : ascii :=
  ascii_of_N (if (d <? 10)%N then 48 + d else 87 + d)%N.

(** [b.toString(16)] for a byte [b]. *)
Definition toString16 (b : N) : string :=
  if (b <? 16)%N then String (hex_digit b) EmptyString
  else String (hex_digit (b / 16)) (String (hex_digit (b mod 16)) EmptyString).

(** [s.padStart(2, '0')]. *)
Definition padStart2 (s : string) : string :=
  match s with
  | EmptyString => "00"
  | String c EmptyString => String "0" (String c EmptyString)
  | _ => s
  end.

(** [hashArray.map(b => b.toString(16).padStart(2, '0')).join('')]. *)
Definition hex_of_bytes (hashArray : list Byte.byte) : string :=
  foldr (fun b acc => padStart2 (toString16 (Byte.to_N b)) +:+ acc) "" hashArray.

Section ContentHash.
(** The two platform calls of [generateFileHash]: [file.arrayBuffer()]
    and [crypto.subtle.digest('SHA-256', buffer)]. *)
Variable arrayBuffer : File -> Completion (list Byte.byte).
Variable digest_SHA256 : list Byte.byte -> Completion (list Byte.byte).

(** The body of the [try] block. *)
Definition hash_attempt (file : File) : Completion string :=
  buffer ← arrayBuffer file;
  hashBuffer ← digest_SHA256 buffer;
  mret (hex_of_bytes hashBuffer).

(** [generateFileHash(file)]; the handler logs to the console and
    returns the signature. *)
Definition generateFileHash (file : File) : Completion string :=
  try_catch (hash_attempt file)
    (fun _ => Normal (createFileSignature file)).
End ContentHash.

(** ** components/product/ProductImageManager.tsx *)

Inductive MediaKind : Type := image.

Module MediaItem.
Record t : Type := mk
  { id : string;
    url : string;
    file : option File;
    isFeatured : bool;
    mediaType : MediaKind }.

(** [{ ...img, isFeatured: b }], also the assignment [img.isFeatured = b]. *)
Definition with_isFeatured (b : bool) (img : t) : t :=
  {| id := id img; url := url img; file := file img;
     isFeatured := b; mediaType := mediaType img |}.
End MediaItem.
Abbreviation MediaItem := MediaItem.t.

(** The notifications of [handleFileSelect], by call site.  The texts are
    Portuguese messages built from the fields kept here. *)
Inductive Toast : Type :=
  | ToastBusy                                  (* toast.info: wait for the previous upload *)
  | ToastLimit (maxImages : Z)                 (* toast.error: maximum of maxImages reached *)
  | ToastInvalid (name reason : string)        (* toast.error: `${name}: ${reason}` *)
  | ToastDuplicates (names : list string)      (* toast.warning: duplicates ignored *)
  | ToastNoValid                               (* toast.error: no valid image to add *)
  | ToastAdded (count : nat) (totalSize : Z).  (* toast.success: count images added *)

Inductive Level : Type := info | error | warning | success.

Definition toast_level (t : Toast) : Level :=
  match t with
  | ToastBusy => info
  | ToastLimit _ | ToastInvalid _ _ | ToastNoValid => error
  | ToastDuplicates _ => warning
  | ToastAdded _ _ => success
  end.

(** What a call of a handler does besides computing: it notifies the user
    and it calls the validator. *)
Inductive Event : Type :=
  | Notify (t : Toast)
  | CallValidateFiles (files : list File) (options : FileValidationOptions).

(** The result of one call of [handleFileSelect]: its events in order, the
    argument of [onChange] when it is called, and the value of
    [processingQueueRef.current] when the call ends. *)
Record Outcome : Type := mkOutcome
  { events : list Event;
    onChange : option (list MediaItem);
    processingQueue : bool }.

Definition manager_allowedTypes : list string :=
  ["image/png"; "image/jpeg"; "image/webp"; "image/jpg"].

Section Manager.
(** The props [maxImages] (default 10) and [maxFileSize] (default 5). *)
Variable maxImages : Z.
Variable maxFileSize_prop : Z.

(** The entry [handleFileSelect] makes of the valid file at [index];
    [uuid] and [objectURL] give the results of the calls [uuidv4()] and
    [URL.createObjectURL(file)] made for that index. *)
Definition new_image (uuid objectURL : nat -> string)
    (images : list MediaItem) (index : nat) (file : File) : MediaItem :=
  {| MediaItem.id := "new-" +:+ uuid index;
     MediaItem.url := objectURL index;
     MediaItem.file := Some file;
     MediaItem.isFeatured :=
       (length images =? 0)%nat && (index =? 0)%nat;
     MediaItem.mediaType := image |}.

(** The options [handleFileSelect] passes to the validator;
    [existingFiles] is [images.map(img => img.file)] without the
    [undefined] ones. *)
Definition validation_options (images : list MediaItem)
  : FileValidationOptions :=
  {| maxFileSize := Some maxFileSize_prop;
     allowedTypes := Some manager_allowedTypes;
     existingFiles := Some (omap MediaItem.file images) |}.

(** [handleFileSelect(files)], called while [processingQueueRef.current]
    is [processing]; [files] is [None] for a [null] list.  The [catch]
    branch is not reached: nothing in the [try] block throws here. *)
Definition handleFileSelect (uuid objectURL : nat -> string)
    (processing : bool) (images : list MediaItem)
    (files : option (list File)) : Outcome :=
  match files with
  | None | Some [] =>
      {| events := []; onChange := None; processingQueue := processing |}
  | Some files =>
      if processing then
        {| events := [Notify ToastBusy]; onChange := None;
           processingQueue := true |}
      else
        let remainingSlots := maxImages - Z.of_nat (length images) in
        let filesToAdd := slice_to remainingSlots files in
        if (length filesToAdd =? 0)%nat then
          {| events := [Notify (ToastLimit maxImages)]; onChange := None;
             processingQueue := false |}
        else
          let options := validation_options images in
          let validationResult := validateFiles filesToAdd options in
          let reported :=
            CallValidateFiles filesToAdd options
            :: ((fun e => Notify (ToastInvalid (InvalidEntry.name e)
                                    (InvalidEntry.reason e)))
                  <$> invalid validationResult)
            ++ (if (0 <? length (duplicates validationResult))%nat
                then [Notify (ToastDuplicates (duplicates validationResult))]
                else []) in
          if (length (validFiles validationResult) =? 0)%nat then
            {| events :=
                 reported ++
                 (if (length (invalid validationResult) =? 0)%nat
                     && (length (duplicates validationResult) =? 0)%nat
                  then [Notify ToastNoValid] else []);
               onChange := None;
               processingQueue := false |}
          else
            let newImages :=
              imap (new_image uuid objectURL images)
                (validFiles validationResult) in
            let combinedImages := images ++ newImages in
            let totalSize :=
              fold_left (fun sum file => sum + File.size file)
                (validFiles validationResult) 0 in
            {| events :=
                 reported ++
                 [Notify (ToastAdded (length (validFiles validationResult))
                            totalSize)];
               onChange := Some combinedImages;
               processingQueue := false |}
  end.

(** [setFeaturedImage(imageId)]: the argument of [onChange]. *)
Definition setFeaturedImage (imageId : string) (images : list MediaItem)
  : list MediaItem :=
  (fun img =>
     MediaItem.with_isFeatured (bool_decide (MediaItem.id img = imageId)) img)
  <$> images.

(** [removeImage(imageId)]: the argument of [onChange].  The assignment
    to [remainingImages[0].isFeatured] changes the object that the old
    array shares; the old array is not read again. *)
Definition removeImage (imageId : string) (images : list MediaItem)
  : list MediaItem :=
  let imageToRemove :=
    List.find (fun img => bool_decide (MediaItem.id img = imageId)) images in
  let remainingImages :=
    filter (fun img => MediaItem.id img ≠ imageId) images in
  if from_option MediaItem.isFeatured false imageToRemove
     && (0 <? length remainingImages)%nat
  then alter (MediaItem.with_isFeatured true) 0%nat remainingImages
  else remainingImages.

(** *** The collection as a state machine *)

(** The three operations of the collection.  [AddFiles] carries what the
    environment supplies to that call: the identifiers and the URLs. *)
Inductive Op : Type :=
  | AddFiles (files : list File) (uuid objectURL : nat -> string)
  | Remove (imageId : string)
  | SetFeatured (imageId : string).

(** The parent stores the argument of [onChange] and passes it back as
    [images]; a call that does not reach [onChange] leaves it as it is. *)
Definition apply_op (images : list MediaItem) (op : Op) : list MediaItem :=
  match op with
  | AddFiles files uuid objectURL =>
      default images
        (onChange (handleFileSelect uuid objectURL false images (Some files)))
  | Remove imageId => removeImage imageId images
  | SetFeatured imageId => setFeaturedImage imageId images
  end.

Definition run (images : list MediaItem) (ops : list Op) : list MediaItem :=
  fold_left apply_op ops images.

(** The condition under which the user interface issues an operation:
    the star button of an entry passes that entry's [id], and [uuidv4]
    yields identifiers that are new to the collection. *)
Definition op_ok (images : list MediaItem) (op : Op) : Prop :=
  match op with
  | AddFiles _ _ _ => NoDup (MediaItem.id <$> apply_op images op)
  | Remove _ => True
  | SetFeatured imageId => imageId ∈ MediaItem.id <$> images
  end.

Fixpoint ops_ok (images : list MediaItem) (ops : list Op) : Prop :=
  match ops with
  | [] => True
  | op :: rest => op_ok images op ∧ ops_ok (apply_op images op) rest
  end.
End Manager.

(** Number of entries with [isFeatured = true]. *)
Definition featured_count (images : list MediaItem) : nat :=
  length (filter (fun img => MediaItem.isFeatured img = true) images).

(** The featured invariant: exactly one featured entry in a non-empty
    collection, none in the empty one. *)
Definition featured_invariant (images : list MediaItem) : Prop :=
  featured_count images = if decide (images = []) then 0%nat else 1%nat.

(** ** Vocabulary of the properties *)

(** The bucket a candidate is put in. *)
Inductive Bucket : Type :=
  | InValid
  | InDuplicates
  | InInvalid (reason : string).

(** The three buckets that a labelling of the candidates describes, each
    in the order of the candidates. *)
Definition labelled_valid (labelled : list (File * Bucket)) : list File :=
  omap (fun p => match p.2 with InValid => Some p.1 | _ => None end) labelled.

Definition labelled_duplicates (labelled : list (File * Bucket)) : list string :=
  omap (fun p => match p.2 with
                 | InDuplicates => Some (File.name p.1)
                 | _ => None
                 end) labelled.

Definition labelled_invalid (labelled : list (File * Bucket))
  : list InvalidEntry :=
  omap (fun p => match p.2 with
                 | InInvalid reason => Some (InvalidEntry.mk (File.name p.1) reason)
                 | _ => None
                 end) labelled.

(** The results of validating a batch of one file. *)
Definition only_valid (file : File) : FileValidationResult :=
  {| validFiles := [file]; duplicates := []; invalid := [] |}.

Definition only_duplicate (file : File) : FileValidationResult :=
  {| validFiles := []; duplicates := [File.name file]; invalid := [] |}.

Definition only_invalid (file : File) (reason : string) : FileValidationResult :=
  {| validFiles := []; duplicates := [];
     invalid := [InvalidEntry.mk (File.name file) reason] |}.

(** The options with one more existing file. *)
Definition add_existing (file : File) (options : FileValidationOptions)
  : FileValidationOptions :=
  {| maxFileSize := maxFileSize options;
     allowedTypes := allowedTypes options;
     existingFiles := Some (default [] (existingFiles options) ++ [file]) |}.

Definition within_size_limit (file : File) (options : FileValidationOptions)
  : Prop :=
  File.size file <= default 5 (maxFileSize options) * 1024 * 1024.

(** The type check of the code: some allowed entry matches. *)
Definition type_allowed (file : File) (options : FileValidationOptions) : Prop :=
  ∃ type, type ∈ default default_allowedTypes (allowedTypes options)
          ∧ (startsWith (File.type file) (split_head "/" type) = true
             ∨ File.type file = type).

(** The type check in the words of the specification: the media type
    equals an allowed entry, or the part before its ['/'] equals the part
    before the ['/'] of an allowed entry. *)
Definition spec_type_allowed (file : File) (options : FileValidationOptions)
  : Prop :=
  ∃ type, type ∈ default default_allowedTypes (allowedTypes options)
          ∧ (File.type file = type
             ∨ split_head "/" (File.type file) = split_head "/" type).

Definition signature_known (file : File) (options : FileValidationOptions)
  : Prop :=
  createFileSignature file
  ∈ createFileSignature <$> default [] (existingFiles options).

#[global] Instance signature_known_dec file options :
  Decision (signature_known file options).
Proof. unfold signature_known. apply _. Defined.

(** [c] occurs in [s]. *)
Fixpoint occurs (c : ascii) (s : string) : bool :=
  match s with
  | EmptyString => false
  | String d rest => Ascii.eqb d c || occurs c rest
  end.

(** The calls of the validator among the events of a handler. *)
Definition validator_calls (evs : list Event)
  : list (list File * FileValidationOptions) :=
  omap (fun ev => match ev with
                  | CallValidateFiles files options => Some (files, options)
                  | Notify _ => None
                  end) evs.

(** The call reports a failure: it raises an error notification. *)
Definition reports_failure (out : Outcome) : Prop :=
  ∃ t, Notify t ∈ events out ∧ toast_level t = error.

(** Concrete data for the examples. *)
Definition photo_png : File := File.mk "photo.png" 204800 "image/png" 1700000000000.
Definition logo_png : File := File.mk "logo.png" 4096 "image/png" 1700000000500.
Definition banner_webp : File := File.mk "banner.webp" 90000 "image/webp" 1700000001000.
Definition odd_type : File := File.mk "scan.bin" 512 "imagex/raw" 1700000002000.

Definition uuid_n (n : nat) : string := "0000-" +:+ pretty n.
Definition blob_n (n : nat) : string := "blob:" +:+ pretty n.

Definition stored (id : string) (featured : bool) : MediaItem :=
  {| MediaItem.id := id; MediaItem.url := "https://cdn/" +:+ id;
     MediaItem.file := None; MediaItem.isFeatured := featured;
     MediaItem.mediaType := image |}.

(** A session of the image manager, as a sequence of operations. *)
Definition session : list Op :=
  [AddFiles [photo_png; logo_png] uuid_n blob_n;
   SetFeatured "new-0000-1";
   Remove "new-0000-1";
   AddFiles [banner_webp; photo_png] (fun n => uuid_n (n + 2)) blob_n;
   Remove "new-0000-0"].

(** ** Further code of the repository *)

(** *** lib/fileValidation.ts: the remaining predicates *)

(** [areFilesIdentical(file1, file2)]. *)
Definition areFilesIdentical (file1 file2 : File) : bool :=
  bool_decide (createFileSignature file1 = createFileSignature file2).

(** [isImageFile(file)] and [isVideoFile(file)]. *)
Definition isImageFile (file : File) : bool :=
  startsWith (File.type file) "image/".

Definition isVideoFile (file : File) : bool :=
  startsWith (File.type file) "video/".

(** *** ProductImageManager.tsx: drop and recrop *)

(** [handleDrop(e)] with [files = e.dataTransfer.files]; [isProcessing]
    is the state variable, [processing] the value of the ref. *)
Definition handleDrop (maxImages maxSize : Z) (uuid objectURL : nat -> string)
    (isProcessing processing : bool) (images : list MediaItem)
    (files : option (list File)) : Outcome :=
  if isProcessing then
    {| events := [Notify ToastBusy]; onChange := None;
       processingQueue := processing |}
  else handleFileSelect maxImages maxSize uuid objectURL processing images files.

(** [new File([croppedBlob], `recropped-${uuidv4()}.jpg`, { type:
    'image/jpeg' })]: the size is that of the blob and [lastModified] the
    time of the call. *)
Definition croppedFile (uuid : string) (blobSize now : Z) : File :=
  File.mk ("recropped-" +:+ uuid +:+ ".jpg") blobSize "image/jpeg" now.

(** The [images.map] of [handleCropComplete]; [calls] counts the calls of
    [URL.createObjectURL] made so far, one for each entry with the id. *)
Fixpoint recrop_entries (targetId : string) (cropped : File)
    (objectURL : nat -> string) (calls : nat) (images : list MediaItem)
  : list MediaItem :=
  match images with
  | [] => []
  | img :: rest =>
      if bool_decide (MediaItem.id img = targetId) then
        {| MediaItem.id := MediaItem.id img;
           MediaItem.url := objectURL calls;
           MediaItem.file := Some cropped;
           MediaItem.isFeatured := MediaItem.isFeatured img;
           MediaItem.mediaType := MediaItem.mediaType img |}
        :: recrop_entries targetId cropped objectURL (S calls) rest
      else img :: recrop_entries targetId cropped objectURL calls rest
  end.

(** The state of the cropper dialog and what a call of
    [handleCropComplete] leaves: the argument of [onChange] when it is
    called, the dialog state, and whether the success toast was shown. *)
Record CropOutcome : Type := mkCropOutcome
  { crop_onChange : option (list MediaItem);
    crop_imageToRecrop : option MediaItem;
    crop_showCropper : bool;
    crop_success : bool }.

(** [handleCropComplete(croppedBlob)]. *)
Definition handleCropComplete (uuid : string) (now : Z)
    (objectURL : nat -> string) (imageToRecrop : option MediaItem)
    (showCropper : bool) (images : list MediaItem) (blobSize : Z)
  : CropOutcome :=
  match imageToRecrop with
  | Some target =>
      let cropped := croppedFile uuid blobSize now in
      let updatedImages :=
        recrop_entries (MediaItem.id target) cropped objectURL 0 images in
      {| crop_onChange := Some updatedImages;
         crop_imageToRecrop := None;
         crop_showCropper := false;
         crop_success := true |}
  | None =>
      {| crop_onChange := None;
         crop_imageToRecrop := None;
         crop_showCropper := showCropper;
         crop_success := false |}
  end.

(** *** The variant of the manager that caches object URLs *)

Module Cached.

(** Its [MediaItem] has one more optional field, [fileHash]. *)
Record Item : Type := mkItem
  { id : string;
    url : string;
    file : option File;
    isFeatured : bool;
    mediaType : MediaKind;
    fileHash : option string }.

(** The module-level [urlCache], the calls of [URL.revokeObjectURL] made
    so far, in order, and the calls of [URL.createObjectURL] made so far,
    in order: the URL returned and the file it stands for. *)
Record Store : Type := mkStore
  { urlCache : gmap string string;
    revoked : list string;
    objects : list (string * File) }.

(** [if (url) URL.revokeObjectURL(url)]: the empty string is falsy. *)
Definition revoke_if_truthy (url : string) (revoked : list string)
  : list string :=
  match url with
  | EmptyString => revoked
  | String _ _ => revoked ++ [url]
  end.

Section Urls.
(** The URL the browser returns at its [n]-th call of
    [URL.createObjectURL]. *)
Variable objectURL : nat -> string.

(** [createSafeObjectURL(file, fileId)]. *)
Definition createSafeObjectURL (file : File) (fileId : string) (st : Store)
  : string * Store :=
  match urlCache st !! fileId with
  | Some url => (url, st)
  | None =>
      let url := objectURL (length (objects st)) in
      (url, {| urlCache := <[fileId := url]> (urlCache st);
               revoked := revoked st;
               objects := objects st ++ [(url, file)] |})
  end.

(** The revocation at the start of the recrop of one entry. *)
Definition revoke_cached (imageId : string) (st : Store) : Store :=
  match urlCache st !! imageId with
  | Some oldUrl =>
      {| urlCache := urlCache st;
         revoked := revoke_if_truthy oldUrl (revoked st);
         objects := objects st |}
  | None => st
  end.

(** The [images.map] of [handleCropComplete] in this variant, with the
    store threaded through the callbacks from left to right. *)
Fixpoint recrop_entries (targetId : string) (cropped : File)
    (images : list Item) (st : Store) : list Item * Store :=
  match images with
  | [] => ([], st)
  | img :: rest =>
      if bool_decide (id img = targetId) then
        let '(newUrl, st1) :=
          createSafeObjectURL cropped (id img) (revoke_cached (id img) st) in
        let '(rest', st2) := recrop_entries targetId cropped rest st1 in
        ({| id := id img; url := newUrl; file := Some cropped;
            isFeatured := isFeatured img; mediaType := mediaType img;
            fileHash := fileHash img |} :: rest', st2)
      else
        let '(rest', st2) := recrop_entries targetId cropped rest st in
        (img :: rest', st2)
  end.

(** [handleCropComplete(croppedBlob)]: the argument of [onChange], when it
    is called, and the store. *)
Definition handleCropComplete (uuid : string) (now : Z)
    (imageToRecrop : option Item) (images : list Item) (blobSize : Z)
    (st : Store) : option (list Item) * Store :=
  match imageToRecrop with
  | Some target =>
      let cropped := croppedFile uuid blobSize now in
      let '(updatedImages, st') :=
        recrop_entries (id target) cropped images st in
      (Some updatedImages, st')
  | None => (None, st)
  end.

(** [removeImage(imageId)]: the argument of [onChange] and the store. *)
Definition removeImage (imageId : string) (images : list Item) (st : Store)
  : list Item * Store :=
  let imageToRemove :=
    List.find (fun img => bool_decide (id img = imageId)) images in
  let remainingImages := filter (fun img => id img ≠ imageId) images in
  let remainingImages :=
    if from_option isFeatured false imageToRemove
       && (0 <? length remainingImages)%nat
    then alter (fun img =>
                  {| id := id img; url := url img; file := file img;
                     isFeatured := true; mediaType := mediaType img;
                     fileHash := fileHash img |}) 0%nat remainingImages
    else remainingImages in
  let st' :=
    match urlCache st !! imageId with
    | Some url =>
        {| urlCache := delete imageId (urlCache st);
           revoked := revoke_if_truthy url (revoked st);
           objects := objects st |}
    | None => st
    end in
  (remainingImages, st').
End Urls.

End Cached.

(** *** The edit page: loading, deletions, price tiers *)

(** A row of [product_images] as the page reads it. *)
Module ImageRow.
Record t : Type := mk
  { id : string;
    url : string }.
End ImageRow.
Abbreviation ImageRow := ImageRow.t.

(** The images [fetchProduct] builds: the featured image of the product
    first, when [featured_image_url] is a non-empty string, then the rows
    in display order, none of them featured.  [None] is [null]. *)
Definition load_images (featured_image_url : option string)
    (rows : option (list ImageRow)) : list MediaItem :=
  (match featured_image_url with
   | Some (String c rest) =>
       [{| MediaItem.id := "featured-existing";
           MediaItem.url := String c rest;
           MediaItem.file := None;
           MediaItem.isFeatured := true;
           MediaItem.mediaType := image |}]
   | _ => []
   end)
  ++ (match rows with
      | Some rows =>
          (fun img =>
             {| MediaItem.id := ImageRow.id img;
                MediaItem.url := ImageRow.url img;
                MediaItem.file := None;
                MediaItem.isFeatured := false;
                MediaItem.mediaType := image |}) <$> rows
      | None => []
      end).

(** The elements of [new Set(list)] in the order [forEach] visits them:
    the order of first insertion. *)
Definition set_order (l : list string) : list string :=
  fold_left (fun seen x => if bool_decide (x ∈ seen) then seen else seen ++ [x])
    l [].

(** The test of [handleImagesChange] on an id that is gone: it is the id
    of a stored row. *)
Definition is_stored_id (id : string) : bool :=
  negb (bool_decide (id = "featured-existing"))
  && negb (startsWith id "new-")
  && negb (startsWith id "video-").

(** [handleImagesChange(newImages)] on the state [productImages],
    [imagesToDelete]: the new state. *)
Definition handleImagesChange (productImages : list MediaItem)
    (imagesToDelete : list string) (newImages : list MediaItem)
  : list MediaItem * list string :=
  let currentImageIds := set_order (MediaItem.id <$> productImages) in
  let newImageIds : gset string := list_to_set (MediaItem.id <$> newImages) in
  (newImages,
   imagesToDelete
   ++ filter (fun id => (id ∉ newImageIds) ∧ is_stored_id id = true)
        currentImageIds).



Section Tiers.
(** Prices are floating-point numbers; nothing here computes with them. *)
Variable Price : Type.

Record PriceTier : Type := mkPriceTier
  { tier_id : string;
    min_quantity : Z;
    max_quantity : option Z;
    unit_price : Price;
    discounted_unit_price : option Price }.

(** A record of [product_price_tiers] as [onSubmit] inserts it. *)
Record TierRecord : Type := mkTierRecord
  { product_id : string;
    record_min_quantity : Z;
    record_max_quantity : option Z;
    record_unit_price : Price;
    record_discounted_unit_price : option Price }.

(** [[...tiers].sort((a, b) => a.min_quantity - b.min_quantity)].  The
    sort of the language is stable, so with this comparator its result is
    the one of a stable insertion sort on [min_quantity]. *)
Fixpoint insert_tier (tier : PriceTier) (sorted : list PriceTier)
  : list PriceTier :=
  match sorted with
  | [] => [tier]
  | next :: rest =>
      if min_quantity next <? min_quantity tier
      then next :: insert_tier tier rest
      else tier :: next :: rest
  end.

Definition sort_tiers (tiers : list PriceTier) : list PriceTier :=
  foldr insert_tier [] tiers.

(** The [sortedTiers.map((tier, index, array) => ...)] of [onSubmit]. *)
Definition tier_records (id : string) (priceTiers : list PriceTier)
  : list TierRecord :=
  let sortedTiers := sort_tiers priceTiers in
  imap
    (fun index tier =>
       let isLastTier :=
         bool_decide (Z.of_nat index = Z.of_nat (length sortedTiers) - 1) in
       let nextTier :=
         if isLastTier then None else sortedTiers !! (index + 1)%nat in
       let maxQuantity :=
         if isLastTier then None
         else match nextTier with
              | Some next => Some (min_quantity next - 1)
              | None => None
              end in
       {| product_id := id;
          record_min_quantity := min_quantity tier;
          record_max_quantity := maxQuantity;
          record_unit_price := unit_price tier;
          record_discounted_unit_price := discounted_unit_price tier |})
    sortedTiers.

(** A quantity falls in the range of a record. *)
Definition in_range (q : Z) (r : TierRecord) : Prop :=
  record_min_quantity r <= q
  ∧ match record_max_quantity r with
    | Some m => q <= m
    | None => True
    end.
End Tiers.

Arguments mkPriceTier {Price}.
Arguments tier_id {Price}.
Arguments min_quantity {Price}.
Arguments max_quantity {Price}.
Arguments unit_price {Price}.
Arguments discounted_unit_price {Price}.
Arguments mkTierRecord {Price}.
Arguments product_id {Price}.
Arguments record_min_quantity {Price}.
Arguments record_max_quantity {Price}.
Arguments record_unit_price {Price}.
Arguments record_discounted_unit_price {Price}.
Arguments insert_tier {Price}.
Arguments sort_tiers {Price}.
Arguments tier_records {Price}.
Arguments in_range {Price}.

(** *** The size selector *)

(** [handleSizeToggle(size)]: the argument of [onSizesChange]. *)
Definition handleSizeToggle (sizes : list string) (size : string)
  : list string :=
  if bool_decide (size ∈ sizes)
  then filter (fun s => s ≠ size) sizes
  else sizes ++ [size].

Section CustomSize.
(** [String.prototype.trim]. *)
Variable trim : string -> string.

(** [handleAddCustomSize()] on the state [sizes], [customSize]: the new
    state.  The empty string is falsy. *)
Definition handleAddCustomSize (sizes : list string) (customSize : string)
  : list string * string :=
  let trimmed := trim customSize in
  if negb (bool_decide (trimmed = ""))
     && negb (bool_decide (trimmed ∈ sizes))
     && (Z.of_nat (length sizes) <? 10)
  then (sizes ++ [trimmed], "")
  else (sizes, customSize).
End CustomSize.

(** ** Vocabulary of the further properties *)

(** The entry of the invalid bucket that the size and type checks give a
    file, if any. *)
Definition rejection (options : FileValidationOptions) (file : File)
  : option InvalidEntry :=
  let maxSize := default 5 (maxFileSize options) in
  if File.size file >? maxSize * 1024 * 1024
  then Some (InvalidEntry.mk (File.name file) (sizeReason maxSize))
  else if negb (existsb (type_matches file)
                  (default default_allowedTypes (allowedTypes options)))
  then Some (InvalidEntry.mk (File.name file) typeReason)
  else None.

(** The file passes the size and type checks. *)
Definition passes_checks (options : FileValidationOptions) (file : File)
  : bool :=
  bool_decide (rejection options file = None).

(** The files of a batch that are the first, among those passing the
    checks, to bring a signature outside [seen]; and the names of the
    others that pass the checks. *)
Fixpoint accepted (options : FileValidationOptions) (seen : gset string)
    (files : list File) : list File :=
  match files with
  | [] => []
  | file :: rest =>
      if passes_checks options file
         && negb (bool_decide (createFileSignature file ∈ seen))
      then file :: accepted options ({[createFileSignature file]} ∪ seen) rest
      else accepted options seen rest
  end.

Fixpoint repeated (options : FileValidationOptions) (seen : gset string)
    (files : list File) : list string :=
  match files with
  | [] => []
  | file :: rest =>
      if passes_checks options file then
        if bool_decide (createFileSignature file ∈ seen)
        then File.name file :: repeated options seen rest
        else repeated options ({[createFileSignature file]} ∪ seen) rest
      else repeated options seen rest
  end.

(** Two results one after the other, bucket by bucket. *)
Definition append_results (r1 r2 : FileValidationResult)
  : FileValidationResult :=
  {| validFiles := validFiles r1 ++ validFiles r2;
     duplicates := duplicates r1 ++ duplicates r2;
     invalid := invalid r1 ++ invalid r2 |}.

(** The options with more existing files. *)
Definition add_existing_files (files : list File)
    (options : FileValidationOptions) : FileValidationOptions :=
  {| maxFileSize := maxFileSize options;
     allowedTypes := allowedTypes options;
     existingFiles := Some (default [] (existingFiles options) ++ files) |}.

(** The signatures of the existing files of the options, as the set the
    validator builds. *)
Definition existing_signatures (options : FileValidationOptions)
  : gset string :=
  list_to_set (createFileSignature <$> default [] (existingFiles options)).

(** The files of the pending entries of a collection. *)
Definition pending_files (images : list MediaItem) : list File :=
  omap MediaItem.file images.

(** Reading a hexadecimal text back, two digits per byte. *)
Definition hex_value (c : ascii) : N :=
  let n := N_of_ascii c in
  if (n <? 58)%N then (n - 48)%N else (n - 87)%N.

Fixpoint bytes_of_hex (s : string) : option (list Byte.byte) :=
  match s with
  | EmptyString => Some []
  | String c1 (String c2 rest) =>
      match Byte.of_N (16 * hex_value c1 + hex_value c2), bytes_of_hex rest with
      | Some b, Some l => Some (b :: l)
      | _, _ => None
      end
  | String _ EmptyString => None
  end.

(** A pending entry of the variant with the cache, and a store in which
    its URL is cached. *)
Definition cached_photo : Cached.Item :=
  {| Cached.id := "new-1"; Cached.url := "blob:1"; Cached.file := Some photo_png;
     Cached.isFeatured := true; Cached.mediaType := image;
     Cached.fileHash := None |}.

Definition cached_store : Cached.Store :=
  {| Cached.urlCache := {["new-1" := "blob:1"]};
     Cached.revoked := [];
     Cached.objects := [("blob:1", photo_png)] |}.

(** The records of a sorted list of tiers, each with the tier after it. *)
Fixpoint records_of {Price : Type} (id : string)
    (sorted : list (PriceTier Price)) : list (TierRecord Price) :=
  match sorted with
  | [] => []
  | tier :: rest =>
      {| product_id := id;
         record_min_quantity := min_quantity tier;
         record_max_quantity :=
           match rest with
           | [] => None
           | next :: _ => Some (min_quantity next - 1)
           end;
         record_unit_price := unit_price tier;
         record_discounted_unit_price := discounted_unit_price tier |}
      :: records_of id rest
  end.

(** The order of the sort. *)
Definition le_min {Price : Type} (tier1 tier2 : PriceTier Price) : Prop :=
  min_quantity tier1 <= min_quantity tier2.

(** Three tiers, entered out of order. *)
Definition sample_tiers : list (PriceTier nat) :=
  [mkPriceTier "t3" 50 None 700%nat None;
   mkPriceTier "t1" 1 None 1000%nat None;
   mkPriceTier "t2" 10 None 900%nat (Some 850%nat)].

(** ** The validation loop *)

(** One iteration puts the file in one bucket: the state after it is the
    state before it extended by what a single label describes. *)
Lemma validate_file_bucket maxSize allowed existing (st : LoopState) file :
  ∃ b : Bucket,
    let st' := validate_file maxSize allowed existing st file in
    validFiles st'.1 = validFiles st.1 ++ labelled_valid [(file, b)]
    ∧ duplicates st'.1 = duplicates st.1 ++ labelled_duplicates [(file, b)]
    ∧ invalid st'.1 = invalid st.1 ++ labelled_invalid [(file, b)].
Proof.
  destruct st as [result processed]. unfold validate_file.
  destruct (File.size file >? maxSize * 1024 * 1024).
  { exists (InInvalid (sizeReason maxSize)). cbn. by rewrite !app_nil_r. }
  destruct (negb (existsb (type_matches file) allowed)).
  { exists (InInvalid typeReason). cbn. by rewrite !app_nil_r. }
  destruct (bool_decide (createFileSignature file ∈ existing)).
  { exists InDuplicates. cbn. by rewrite !app_nil_r. }
  destruct (bool_decide (createFileSignature file ∈ processed)).
  { exists InDuplicates. cbn. by rewrite !app_nil_r. }
  exists InValid. cbn. by rewrite !app_nil_r.
Qed.

Lemma labelled_valid_cons p l :
  labelled_valid (p :: l) = labelled_valid [p] ++ labelled_valid l.
Proof. unfold labelled_valid. cbn. by destruct p as [f []]. Qed.

Lemma labelled_duplicates_cons p l :
  labelled_duplicates (p :: l)
  = labelled_duplicates [p] ++ labelled_duplicates l.
Proof. unfold labelled_duplicates. cbn. by destruct p as [f []]. Qed.

Lemma labelled_invalid_cons p l :
  labelled_invalid (p :: l) = labelled_invalid [p] ++ labelled_invalid l.
Proof. unfold labelled_invalid. cbn. by destruct p as [f []]. Qed.

(** The three buckets of a labelling have as many elements as it has. *)
Lemma labelled_lengths (labelled : list (File * Bucket)) :
  (length (labelled_valid labelled) + length (labelled_duplicates labelled)
   + length (labelled_invalid labelled) = length labelled)%nat.
Proof.
  induction labelled as [|[f b] l IH]; [done|].
  rewrite labelled_valid_cons, labelled_duplicates_cons, labelled_invalid_cons.
  rewrite !length_app. destruct b; cbn in *; lia.
Qed.

(** The loop from any state: the buckets grow by a labelling of the files
    it runs over. *)
Lemma validate_loop_partition maxSize allowed existing files :
  ∀ st : LoopState,
  ∃ labels : list Bucket,
    length labels = length files
    ∧ let st' := fold_left (validate_file maxSize allowed existing) files st in
      validFiles st'.1 = validFiles st.1 ++ labelled_valid (zip files labels)
      ∧ duplicates st'.1
        = duplicates st.1 ++ labelled_duplicates (zip files labels)
      ∧ invalid st'.1 = invalid st.1 ++ labelled_invalid (zip files labels).
Proof.
  induction files as [|file files IH]; intros st.
  - exists []. cbn. by rewrite !app_nil_r.
  - destruct (validate_file_bucket maxSize allowed existing st file)
      as (b & Hv & Hd & Hi).
    destruct (IH (validate_file maxSize allowed existing st file))
      as (labels & Hlen & Hv' & Hd' & Hi').
    exists (b :: labels). split; [cbn; by rewrite Hlen|].
    cbn [fold_left zip zip_with] in *.
    rewrite labelled_valid_cons, labelled_duplicates_cons, labelled_invalid_cons.
    rewrite Hv', Hd', Hi', Hv, Hd, Hi. by rewrite <- !app_assoc.
Qed.

(** C3.  For every batch and every configuration the three buckets of
    [validateFiles] are a partition of the batch: some labelling gives each
    candidate, by position, one bucket, [validFiles] holds the candidates
    labelled valid, [duplicates] the names of those labelled duplicate and
    [invalid] the name and reason of those labelled invalid, each in input
    order; and the sizes of the buckets add up to the size of the batch. *)
Theorem validateFiles_partition (files : list File)
    (options : FileValidationOptions) :
  let result := validateFiles files options in
  (∃ labels : list Bucket,
      length labels = length files
      ∧ validFiles result = labelled_valid (zip files labels)
      ∧ duplicates result = labelled_duplicates (zip files labels)
      ∧ invalid result = labelled_invalid (zip files labels))
  ∧ (length (validFiles result) + length (duplicates result)
     + length (invalid result) = length files)%nat.
Proof.
  cbv zeta. unfold validateFiles.
  destruct (validate_loop_partition
              (default 5 (maxFileSize options))
              (default default_allowedTypes (allowedTypes options))
              (list_to_set
                 (createFileSignature <$> default [] (existingFiles options)))
              files (empty_result, ∅))
    as (labels & Hlen & Hv & Hd & Hi).
  cbn in Hv, Hd, Hi.
  split.
  - exists labels. by rewrite Hv, Hd, Hi.
  - rewrite Hv, Hd, Hi, labelled_lengths, length_zip. lia.
Qed.

(** ** A batch of one file *)

Lemma type_allowed_existsb file options :
  existsb (type_matches file)
    (default default_allowedTypes (allowedTypes options)) = true
  ↔ type_allowed file options.
Proof.
  unfold type_allowed. rewrite existsb_exists. split.
  - intros (type & Hin & Hm). exists type. split; [by apply list_elem_of_In|].
    unfold type_matches in Hm. apply orb_true_iff in Hm as [Hm|Hm]; [by left|].
    right. by apply bool_decide_eq_true in Hm.
  - intros (type & Hin & Hm). exists type. split; [by apply list_elem_of_In|].
    unfold type_matches. apply orb_true_iff. destruct Hm as [Hm|Hm]; [by left|].
    right. by apply bool_decide_eq_true.
Qed.

Lemma signature_known_set file options :
  createFileSignature file
  ∈ (list_to_set (createFileSignature <$> default [] (existingFiles options))
     : gset string)
  ↔ signature_known file options.
Proof. unfold signature_known. by rewrite elem_of_list_to_set. Qed.

(** The four checks in order, on a batch of one file. *)
Lemma validateFiles_single file options :
  validateFiles [file] options =
    if File.size file >? default 5 (maxFileSize options) * 1024 * 1024
    then only_invalid file (sizeReason (default 5 (maxFileSize options)))
    else if negb (existsb (type_matches file)
                    (default default_allowedTypes (allowedTypes options)))
    then only_invalid file typeReason
    else if bool_decide (signature_known file options)
    then only_duplicate file
    else only_valid file.
Proof.
  unfold validateFiles. cbn [fold_left]. unfold validate_file.
  destruct (File.size file >? _); [done|].
  destruct (negb _); [done|].
  rewrite (bool_decide_ext _ _ (signature_known_set file options)).
  destruct (bool_decide (signature_known file options)); [done|].
  rewrite bool_decide_eq_false_2; [done|]. apply not_elem_of_empty.
Qed.

Lemma size_check_passes file options :
  within_size_limit file options →
  (File.size file >? default 5 (maxFileSize options) * 1024 * 1024) = false.
Proof. unfold within_size_limit. intros H. rewrite Z.gtb_ltb. by apply Z.ltb_ge. Qed.

(** C4, as the code has it.  A file that passes the size and type checks
    and whose signature is not among the existing files is classified valid
    by [validateFiles] on the one-file batch, on the first call and again
    on a second call with the same existing files: the set of signatures
    seen in a batch starts empty in every call.  It is classified as a
    duplicate once it has been added to the existing files. *)
Theorem validate_twice_unchanged_existing (file : File)
    (options : FileValidationOptions) :
  within_size_limit file options →
  type_allowed file options →
  ¬ signature_known file options →
  let first := validateFiles [file] options in
  let second := validateFiles [file] options in
  first = only_valid file
  ∧ second = only_valid file
  ∧ validateFiles [file] (add_existing file options) = only_duplicate file.
Proof.
  intros Hsize Htype Hnew. cbv zeta.
  assert (validateFiles [file] options = only_valid file) as Hv.
  { rewrite validateFiles_single, size_check_passes by done.
    apply type_allowed_existsb in Htype. rewrite Htype. cbn [negb].
    by rewrite bool_decide_eq_false_2. }
  split; [done|]. split; [done|].
  rewrite validateFiles_single.
  change (maxFileSize (add_existing file options)) with (maxFileSize options).
  change (allowedTypes (add_existing file options)) with (allowedTypes options).
  rewrite size_check_passes by done.
  apply type_allowed_existsb in Htype. rewrite Htype. cbn [negb].
  rewrite bool_decide_eq_true_2; [done|].
  unfold signature_known, add_existing. cbn [existingFiles default from_option].
  unfold id. rewrite fmap_app. apply elem_of_app. right. cbn. apply list_elem_of_here.
Qed.

Lemma photo_png_checks :
  within_size_limit photo_png no_options
  ∧ type_allowed photo_png no_options
  ∧ ¬ signature_known photo_png no_options.
Proof.
  split; [by vm_compute|]. split.
  - exists "image/png". split; [apply list_elem_of_here | by right].
  - unfold signature_known. cbn. apply not_elem_of_nil.
Qed.

Lemma validate_twice_unchanged_existing_witness :
  validateFiles [photo_png] no_options = only_valid photo_png
  ∧ validateFiles [photo_png] no_options = only_valid photo_png
  ∧ validateFiles [photo_png] (add_existing photo_png no_options)
    = only_duplicate photo_png.
Proof.
  apply (validate_twice_unchanged_existing photo_png no_options).
  - by vm_compute.
  - exists "image/png". split; [apply list_elem_of_here | by right].
  - unfold signature_known. cbn. apply not_elem_of_nil.
Defined.

(** C4 as the specification words it fails: for [photo_png] and no
    existing files the checks pass, and the second of two calls with the
    same options does not answer "duplicate". *)
Lemma validate_twice_not_duplicate :
  within_size_limit photo_png no_options
  ∧ type_allowed photo_png no_options
  ∧ ¬ signature_known photo_png no_options
  ∧ ¬ (let first := validateFiles [photo_png] no_options in
       let second := validateFiles [photo_png] no_options in
       first = only_valid photo_png ∧ second = only_duplicate photo_png).
Proof.
  destruct photo_png_checks as (Hs & Ht & Hn).
  do 3 (split; [done|]). cbv zeta. intros [_ Hsecond].
  vm_compute in Hsecond. discriminate Hsecond.
Qed.

(** C5, as the code has it.  A file within the size limit is classified
    invalid with the type reason exactly when no allowed entry matches it,
    where an entry matches when the media type equals it or starts with
    the part of the entry before its first ['/'].  This holds for the batch
    of that one file, and for the iteration on that file from any state of
    the loop, that is at any position of any batch. *)
Theorem type_check_rejects_iff (file : File) (options : FileValidationOptions) :
  within_size_limit file options →
  (validateFiles [file] options = only_invalid file typeReason
   ↔ ¬ type_allowed file options)
  ∧ ∀ (existing : gset string) (st : LoopState),
      (validate_file (default 5 (maxFileSize options))
         (default default_allowedTypes (allowedTypes options))
         existing st file).1
      = push_invalid (InvalidEntry.mk (File.name file) typeReason) st.1
      ↔ ¬ type_allowed file options.
Proof.
  intros Hsize. split.
  - rewrite validateFiles_single, size_check_passes by done.
    rewrite <- type_allowed_existsb.
    destruct (existsb _ _); cbn [negb].
    + split; [|done]. destruct (bool_decide _); discriminate.
    + split; [|done]. intros _. discriminate.
  - intros existing [result processed]. unfold validate_file.
    rewrite size_check_passes by done.
    rewrite <- type_allowed_existsb.
    destruct (existsb _ _); cbn [negb fst].
    + split; [|done]. intros H. exfalso.
      assert (length (invalid (push_invalid
                (InvalidEntry.mk (File.name file) typeReason) result))
              = S (length (invalid result))) as Hlen.
      { cbn. rewrite length_app. cbn. lia. }
      rewrite <- H in Hlen.
      destruct (bool_decide _); [|destruct (bool_decide _)]; cbn in Hlen; lia.
    + split; [|done]. intros _. discriminate.
Qed.

Lemma type_check_rejects_iff_witness :
  validateFiles [File.mk "clip.mp4" 1024 "video/mp4" 1700000003000] no_options
  = only_invalid (File.mk "clip.mp4" 1024 "video/mp4" 1700000003000) typeReason
  ↔ ¬ type_allowed (File.mk "clip.mp4" 1024 "video/mp4" 1700000003000) no_options.
Proof.
  apply (type_check_rejects_iff
           (File.mk "clip.mp4" 1024 "video/mp4" 1700000003000) no_options).
  by vm_compute.
Defined.

(** C5 as the specification words it fails: [odd_type] has the media type
    ["imagex/raw"], which equals no default entry and whose part before the
    ['/'] is ["imagex"], not ["image"]; the code accepts it because the
    media type starts with ["image"]. *)
Lemma type_check_prefix_not_equal :
  within_size_limit odd_type no_options
  ∧ ¬ (validateFiles [odd_type] no_options = only_invalid odd_type typeReason
       ↔ ¬ spec_type_allowed odd_type no_options).
Proof.
  split; [by vm_compute|].
  intros [_ Hback].
  assert (¬ spec_type_allowed odd_type no_options) as Hspec.
  { intros (type & Hin & Hm). cbn in Hin.
    repeat (apply elem_of_cons in Hin as [->|Hin];
            [destruct Hm as [Hm|Hm]; vm_compute in Hm; discriminate Hm|]).
    by apply not_elem_of_nil in Hin. }
  specialize (Hback Hspec). vm_compute in Hback. discriminate Hback.
Qed.

(** ** File extensions *)

Lemma string_app_nil_l (s : string) : "" +:+ s = s.
Proof. reflexivity. Qed.

Lemma string_app_cons d (s t : string) : String d s +:+ t = String d (s +:+ t).
Proof. reflexivity. Qed.

Lemma string_app_assoc (s t u : string) : (s +:+ t) +:+ u = s +:+ (t +:+ u).
Proof.
  induction s as [|d s IH]; [done|]. rewrite !string_app_cons. by rewrite IH.
Qed.

Lemma lastIndexOf_bounds c s :
  -1 <= lastIndexOf c s < Z.of_nat (String.length s).
Proof.
  induction s as [|d rest IH]; cbn [lastIndexOf String.length]; [lia|].
  destruct (0 <=? lastIndexOf c rest) eqn:Hr; [apply Z.leb_le in Hr; lia|].
  destruct (Ascii.eqb d c); lia.
Qed.

Lemma lastIndexOf_absent c s : occurs c s = false → lastIndexOf c s = -1.
Proof.
  induction s as [|d rest IH]; cbn [lastIndexOf occurs]; [done|].
  intros H. apply orb_false_iff in H as [Hd Hrest].
  rewrite (IH Hrest), Hd. done.
Qed.

(** The last occurrence: the index of a [c] after which there is none. *)
Lemma lastIndexOf_last c stem ext :
  occurs c ext = false →
  lastIndexOf c (stem +:+ String c ext) = Z.of_nat (String.length stem).
Proof.
  intros Hext. induction stem as [|d stem IH].
  - rewrite string_app_nil_l. cbn [lastIndexOf String.length].
    rewrite (lastIndexOf_absent _ _ Hext). cbn. by rewrite Ascii.eqb_refl.
  - rewrite string_app_cons. cbn [lastIndexOf String.length].
    rewrite IH.
    destruct (0 <=? Z.of_nat (String.length stem)) eqn:Hn; [lia|].
    apply Z.leb_gt in Hn. lia.
Qed.

Lemma string_drop_all s : string_drop (String.length s) s = "".
Proof. induction s as [|d rest IH]; [done|]. cbn. exact IH. Qed.

Lemma string_drop_app stem rest :
  string_drop (String.length stem) (stem +:+ rest) = rest.
Proof.
  induction stem as [|d stem IH]; [by destruct rest|].
  rewrite string_app_cons. cbn. exact IH.
Qed.

Lemma length_string_app (s1 s2 : string) :
  String.length (s1 +:+ s2) = (String.length s1 + String.length s2)%nat.
Proof.
  induction s1 as [|d s1 IH]; [done|].
  rewrite string_app_cons. cbn. f_equal. exact IH.
Qed.

(** A start at or past the end gives the empty string. *)
Lemma slice_from_past_end start s :
  Z.of_nat (String.length s) <= start → slice_from start s = "".
Proof.
  intros H. unfold slice_from.
  destruct (start <? 0) eqn:Hneg; [apply Z.ltb_lt in Hneg; lia|].
  rewrite Z.min_r by done. rewrite Nat2Z.id. apply string_drop_all.
Qed.

(** C9, as the code has it.  For a file name of fewer than 2^32 characters
    (every string of a JavaScript engine is): when it has no ['.'], or its
    only ['.'] is its first character, [getFileExtension] returns the
    empty string; when its last ['.'] is at index 1 or later, it returns
    what follows that ['.']. *)
Theorem getFileExtension_spec (filename : string) :
  Z.of_nat (String.length filename) < 2 ^ 32 →
  (occurs "." filename = false → getFileExtension filename = "")
  ∧ (∀ ext, filename = String "." ext → occurs "." ext = false →
            getFileExtension filename = "")
  ∧ (∀ stem ext, filename = stem +:+ String "." ext →
                 occurs "." ext = false → stem ≠ "" →
                 getFileExtension filename = ext).
Proof.
  intros Hlen. unfold getFileExtension, to_uint32. repeat split.
  - intros Hno. rewrite (lastIndexOf_absent _ _ Hno).
    apply slice_from_past_end. change ((-1 - 1) mod 2 ^ 32 + 2) with (2 ^ 32). lia.
  - intros ext -> Hext.
    pose proof (lastIndexOf_last "." "" ext Hext) as Hidx.
    rewrite string_app_nil_l in Hidx. rewrite Hidx.
    apply slice_from_past_end.
    change ((Z.of_nat (String.length "") - 1) mod 2 ^ 32 + 2) with (2 ^ 32 + 1).
    lia.
  - intros stem ext -> Hext Hstem.
    rewrite (lastIndexOf_last "." stem ext Hext).
    rewrite length_string_app in Hlen. cbn [String.length] in Hlen.
    assert (0 < Z.of_nat (String.length stem)) as Hpos.
    { destruct stem; [done|]. cbn [String.length]. lia. }
    rewrite Z.mod_small by lia.
    unfold slice_from.
    destruct (_ <? 0) eqn:Hneg; [apply Z.ltb_lt in Hneg; lia|].
    rewrite length_string_app. cbn [String.length].
    rewrite Z.min_l by lia.
    replace (Z.to_nat (Z.of_nat (String.length stem) - 1 + 2))
      with (String.length (stem +:+ ".")).
    2:{ rewrite length_string_app. cbn [String.length]. lia. }
    change (String "." ext) with ("." +:+ ext).
    rewrite <- string_app_assoc. apply string_drop_app.
Qed.

Lemma getFileExtension_spec_witness :
  getFileExtension "README" = ""
  ∧ getFileExtension ".gitignore" = ""
  ∧ getFileExtension "photo.final.png" = "png".
Proof.
  split; [|split].
  - apply (getFileExtension_spec "README"); [by vm_compute | reflexivity].
  - apply (getFileExtension_spec ".gitignore") with (ext := "gitignore");
      [by vm_compute | reflexivity | reflexivity].
  - apply (getFileExtension_spec "photo.final.png") with (stem := "photo.final");
      [by vm_compute | reflexivity | reflexivity | discriminate].
Defined.

(** C9 as the specification words it fails: [".gitignore"] contains a
    ['.'], the text after its last ['.'] is ["gitignore"], and the result
    is the empty string. *)
Lemma getFileExtension_leading_dot :
  occurs "." ".gitignore" = true
  ∧ ".gitignore" = "" +:+ String "." "gitignore"
  ∧ occurs "." "gitignore" = false
  ∧ getFileExtension ".gitignore" ≠ "gitignore".
Proof. repeat split. vm_compute. discriminate. Qed.

(** ** Groups of duplicates *)

(** The grouping loop from any map: a signature that no file of the list
    has keeps its entry; the others get the files with that signature, in
    order, after the files they had. *)
Lemma group_fold_lookup (files : list File) (sig : string) :
  ∀ m : gmap string (list File),
    fold_left
      (fun (signatureMap : gmap string (list File)) file =>
         let signature := createFileSignature file in
         let existing : list File := default [] (signatureMap !! signature) in
         <[signature := existing ++ [file]]> signatureMap)
      files m !! sig
    = match filter (fun f => createFileSignature f = sig) files with
      | [] => m !! sig
      | f :: l => Some (default [] (m !! sig) ++ f :: l)
      end.
Proof.
  induction files as [|file files IH]; intros m; [done|].
  cbn [fold_left]. rewrite IH. cbv zeta.
  destruct (decide (createFileSignature file = sig)) as [Heq|Hne].
  - rewrite filter_cons_True by done. rewrite Heq, lookup_insert_eq.
    cbn [default from_option]. unfold id.
    destruct (filter _ files); [done|]. by rewrite <- app_assoc.
  - rewrite filter_cons_False by done. by rewrite lookup_insert_ne.
Qed.

Lemma group_by_signature_lookup (files : list File) (sig : string) :
  group_by_signature files !! sig
  = match filter (fun f => createFileSignature f = sig) files with
    | [] => None
    | f :: l => Some (f :: l)
    end.
Proof.
  unfold group_by_signature. rewrite group_fold_lookup. by rewrite lookup_empty.
Qed.

(** C10.  The map of [findDuplicatesInArray] has an entry for a signature
    exactly when at least two files of the input have it; the value is the
    list of the input files with that signature, in input order; and a
    file found in a value has its key as signature, shared with another
    file of the input. *)
Theorem findDuplicatesInArray_spec (files : list File) :
  (∀ (sig : string) (group : list File),
      findDuplicatesInArray files !! sig = Some group
      ↔ group = filter (fun f => createFileSignature f = sig) files
        ∧ (2 <= length group)%nat)
  ∧ (∀ (sig : string) (group : list File) (file : File),
        findDuplicatesInArray files !! sig = Some group →
        file ∈ group →
        createFileSignature file = sig
        ∧ (2 <= length (filter (fun f => createFileSignature f
                                        = createFileSignature file) files))%nat).
Proof.
  assert (∀ sig group,
             findDuplicatesInArray files !! sig = Some group
             ↔ group = filter (fun f => createFileSignature f = sig) files
               ∧ (2 <= length group)%nat) as Hmain.
  { intros sig group. unfold findDuplicatesInArray.
    rewrite map_lookup_filter_Some, group_by_signature_lookup. cbn [snd].
    destruct (filter _ files) as [|f l]; split.
    - intros [? _]. discriminate.
    - intros [-> Hlen]. cbn in Hlen. lia.
    - intros [[= <-] Hlen]. split; [done | lia].
    - intros [-> Hlen]. split; [done | lia]. }
  split; [exact Hmain|].
  intros sig group file Hlook Hin.
  apply Hmain in Hlook as [-> Hlen].
  apply list_elem_of_filter in Hin as [Hsig _].
  split; [done|]. by rewrite Hsig.
Qed.

Lemma findDuplicatesInArray_spec_witness :
  createFileSignature photo_png = "photo.png|204800|image/png|1700000000000"
  ∧ (2 <= length (filter (fun f => createFileSignature f
                                   = createFileSignature photo_png)
                    [photo_png; logo_png; photo_png]))%nat.
Proof.
  apply (findDuplicatesInArray_spec [photo_png; logo_png; photo_png])
    with (group := [photo_png; photo_png]).
  - by vm_compute.
  - apply list_elem_of_here.
Defined.

(** ** Content hash *)

(** C8.  When the computation of the content hash fails, in reading the
    bytes of the file or in the digest, [generateFileHash] completes
    normally with the signature of that file: nothing is thrown to the
    caller. *)
Theorem generateFileHash_fallback
    (arrayBuffer : File → Completion (list Byte.byte))
    (digest_SHA256 : list Byte.byte → Completion (list Byte.byte))
    (file : File) (error : string) :
  arrayBuffer file = Throw error
  ∨ (∃ buffer, arrayBuffer file = Normal buffer
               ∧ digest_SHA256 buffer = Throw error) →
  generateFileHash arrayBuffer digest_SHA256 file
  = Normal (createFileSignature file).
Proof.
  unfold generateFileHash, hash_attempt.
  intros [Hread | (buffer & Hread & Hdigest)]; rewrite Hread; cbn.
  - done.
  - by rewrite Hdigest.
Qed.

Lemma generateFileHash_fallback_witness :
  generateFileHash
    (fun _ => Normal [Byte.x89; Byte.x50])
    (fun _ => Throw "OperationError") photo_png
  = Normal "photo.png|204800|image/png|1700000000000".
Proof.
  apply (generateFileHash_fallback _ _ photo_png "OperationError").
  right. exists [Byte.x89; Byte.x50]. split; reflexivity.
Defined.

(** In every case the call completes normally: with the hexadecimal
    digest when both steps succeed, with the signature otherwise. *)
Lemma generateFileHash_total
    (arrayBuffer : File → Completion (list Byte.byte))
    (digest_SHA256 : list Byte.byte → Completion (list Byte.byte))
    (file : File) :
  ∃ identity, generateFileHash arrayBuffer digest_SHA256 file = Normal identity.
Proof.
  unfold generateFileHash, hash_attempt.
  destruct (arrayBuffer file) as [buffer|e]; cbn; [|by eexists].
  destruct (digest_SHA256 buffer) as [hashBuffer|e]; cbn; by eexists.
Qed.

(** ** The featured image *)

Lemma setFeaturedImage_ids imageId (images : list MediaItem) :
  MediaItem.id <$> setFeaturedImage imageId images = MediaItem.id <$> images.
Proof.
  unfold setFeaturedImage. rewrite <- list_fmap_compose.
  by apply list_fmap_ext.
Qed.

(** After [setFeaturedImage] the featured entries are those with the id. *)
Lemma setFeaturedImage_count imageId (images : list MediaItem) :
  featured_count (setFeaturedImage imageId images)
  = length (filter (fun img => MediaItem.id img = imageId) images).
Proof.
  unfold featured_count, setFeaturedImage.
  induction images as [|img images IH]; [done|].
  rewrite fmap_cons.
  destruct (decide (MediaItem.id img = imageId)) as [Heq|Hne].
  - rewrite (filter_cons_True (fun img => MediaItem.id img = imageId)) by done.
    rewrite filter_cons_True; [cbn; by rewrite IH|].
    cbn. by apply bool_decide_eq_true.
  - rewrite (filter_cons_False (fun img => MediaItem.id img = imageId)) by done.
    rewrite filter_cons_False; [done|].
    cbn. rewrite bool_decide_eq_false_2 by done. discriminate.
Qed.

Lemma filter_id_absent imageId (images : list MediaItem) :
  imageId ∉ MediaItem.id <$> images →
  filter (fun img => MediaItem.id img = imageId) images = [].
Proof.
  intros Hno. induction images as [|img images IH]; [done|].
  rewrite fmap_cons in Hno. apply not_elem_of_cons in Hno as [Hne Hrest].
  rewrite filter_cons_False by (intros Heq; by apply Hne). by apply IH.
Qed.

(** With distinct ids, one entry has a given id of the collection. *)
Lemma filter_id_unique imageId (images : list MediaItem) :
  NoDup (MediaItem.id <$> images) →
  imageId ∈ MediaItem.id <$> images →
  length (filter (fun img => MediaItem.id img = imageId) images) = 1%nat.
Proof.
  induction images as [|img images IH]; intros Hnd Hin.
  - by apply not_elem_of_nil in Hin.
  - rewrite fmap_cons in Hnd, Hin. apply NoDup_cons in Hnd as [Hfresh Hnd].
    destruct (decide (MediaItem.id img = imageId)) as [Heq|Hne].
    + rewrite filter_cons_True by done. rewrite filter_id_absent; [done|].
      by rewrite <- Heq.
    + rewrite filter_cons_False by done. apply IH; [done|].
      apply elem_of_cons in Hin as [Heq|Hin]; [by destruct Hne|done].
Qed.

Lemma featured_count_zero (images : list MediaItem) :
  featured_count images = 0%nat
  ↔ Forall (fun img => MediaItem.isFeatured img = false) images.
Proof.
  unfold featured_count. induction images as [|img images IH]; [done|].
  destruct (MediaItem.isFeatured img) eqn:Hf.
  - rewrite filter_cons_True by done. split; [discriminate|].
    intros H. apply Forall_cons in H as [H _]. congruence.
  - rewrite filter_cons_False by congruence. rewrite IH. split.
    + intros H. by apply Forall_cons.
    + intros H. by apply Forall_cons in H as [_ H].
Qed.

(** C2, as the code has it.  [setFeaturedImage] keeps the length of the
    collection and, at every position, the id, url, file and media kind of
    the entry, and makes the entry featured exactly when its id is the
    given one.  So when no entry has the given id, every entry ends up not
    featured, and the collection is unchanged only if none was featured
    before. *)
Theorem setFeaturedImage_spec (imageId : string) (images : list MediaItem) :
  length (setFeaturedImage imageId images) = length images
  ∧ (∀ (i : nat) (img : MediaItem),
        images !! i = Some img →
        ∃ img', setFeaturedImage imageId images !! i = Some img'
                ∧ MediaItem.id img' = MediaItem.id img
                ∧ MediaItem.url img' = MediaItem.url img
                ∧ MediaItem.file img' = MediaItem.file img
                ∧ MediaItem.mediaType img' = MediaItem.mediaType img
                ∧ (MediaItem.isFeatured img' = true
                   ↔ MediaItem.id img = imageId))
  ∧ (imageId ∉ MediaItem.id <$> images →
     Forall (fun img => MediaItem.isFeatured img = false)
       (setFeaturedImage imageId images)
     ∧ (setFeaturedImage imageId images = images
        ↔ featured_count images = 0%nat)).
Proof.
  split; [unfold setFeaturedImage; by rewrite length_fmap|]. split.
  - intros i img Hi. eexists. split.
    + unfold setFeaturedImage. rewrite list_lookup_fmap, Hi. reflexivity.
    + cbn. repeat (split; [done|]). apply bool_decide_eq_true.
  - intros Hno.
    assert (Forall (fun img => MediaItem.isFeatured img = false)
              (setFeaturedImage imageId images)) as Hall.
    { apply featured_count_zero.
      by rewrite setFeaturedImage_count, filter_id_absent. }
    split; [done|]. split.
    + intros Heq. apply featured_count_zero. by rewrite <- Heq.
    + intros Hzero. apply featured_count_zero in Hzero.
      unfold setFeaturedImage.
      clear Hall. induction images as [|img images IH]; [done|].
      rewrite fmap_cons in Hno. apply not_elem_of_cons in Hno as [Hne Hrest].
      apply Forall_cons in Hzero as [Hf Hzero].
      rewrite fmap_cons, (IH Hrest Hzero). f_equal.
      destruct img as [a b c d e]. cbn in *. subst d.
      unfold MediaItem.with_isFeatured. cbn.
      by rewrite bool_decide_eq_false_2 by (intros Heq; by apply Hne).
Qed.

Lemma setFeaturedImage_spec_witness :
  Forall (fun img => MediaItem.isFeatured img = false)
    (setFeaturedImage "c" [stored "a" true; stored "b" false])
  ∧ (setFeaturedImage "c" [stored "a" true; stored "b" false]
     = [stored "a" true; stored "b" false]
     ↔ featured_count [stored "a" true; stored "b" false] = 0%nat).
Proof.
  apply (setFeaturedImage_spec "c" [stored "a" true; stored "b" false]).
  cbn. intros Hin.
  repeat (apply elem_of_cons in Hin as [Hin|Hin]; [discriminate Hin|]).
  by apply not_elem_of_nil in Hin.
Defined.

(** C2 as the specification words it fails: no entry of the collection
    has the id ["c"], and [setFeaturedImage "c"] changes the collection. *)
Lemma setFeaturedImage_absent_not_noop :
  ("c" ∉ MediaItem.id <$> [stored "a" true; stored "b" false])
  ∧ (setFeaturedImage "c" [stored "a" true; stored "b" false]
     ≠ [stored "a" true; stored "b" false]).
Proof.
  split.
  - cbn. intros Hin.
    repeat (apply elem_of_cons in Hin as [Hin|Hin]; [discriminate Hin|]).
    by apply not_elem_of_nil in Hin.
  - vm_compute. discriminate.
Qed.

(** ** Removing an image *)

Lemma find_first_with_id imageId (before after : list MediaItem) target :
  Forall (fun img => MediaItem.id img ≠ imageId) before →
  MediaItem.id target = imageId →
  List.find (fun img => bool_decide (MediaItem.id img = imageId))
    (before ++ target :: after) = Some target.
Proof.
  intros Hbefore Htarget. induction Hbefore as [|img before Hne _ IH]; cbn.
  - by rewrite bool_decide_eq_true_2.
  - by rewrite bool_decide_eq_false_2.
Qed.

Lemma find_absent_id imageId (images : list MediaItem) :
  Forall (fun img => MediaItem.id img ≠ imageId) images →
  List.find (fun img => bool_decide (MediaItem.id img = imageId)) images = None.
Proof.
  induction 1 as [|img images Hne _ IH]; cbn; [done|].
  by rewrite bool_decide_eq_false_2.
Qed.

Lemma filter_keeps_others imageId (images : list MediaItem) :
  Forall (fun img => MediaItem.id img ≠ imageId) images →
  filter (fun img => MediaItem.id img ≠ imageId) images = images.
Proof.
  induction 1 as [|img images Hne _ IH]; [done|].
  rewrite filter_cons_True by done. by rewrite IH.
Qed.

Lemma filter_drops_target imageId (before after : list MediaItem) target :
  Forall (fun img => MediaItem.id img ≠ imageId) (before ++ after) →
  MediaItem.id target = imageId →
  filter (fun img => MediaItem.id img ≠ imageId) (before ++ target :: after)
  = before ++ after.
Proof.
  intros Hothers Htarget. apply Forall_app in Hothers as [Hb Ha].
  rewrite filter_app, filter_cons_False by (intros Hne; by apply Hne).
  by rewrite !filter_keeps_others.
Qed.

(** [removeImage] on a collection in which one entry has the id. *)
Lemma removeImage_target imageId (before after : list MediaItem) target :
  Forall (fun img => MediaItem.id img ≠ imageId) (before ++ after) →
  MediaItem.id target = imageId →
  removeImage imageId (before ++ target :: after)
  = if MediaItem.isFeatured target && (0 <? length (before ++ after))%nat
    then alter (MediaItem.with_isFeatured true) 0%nat (before ++ after)
    else before ++ after.
Proof.
  intros Hothers Htarget. unfold removeImage.
  rewrite filter_drops_target by done.
  rewrite find_first_with_id; [done| |done].
  by apply Forall_app in Hothers as [Hb _].
Qed.

(** [removeImage] with an id that no entry has. *)
Lemma removeImage_absent imageId (images : list MediaItem) :
  Forall (fun img => MediaItem.id img ≠ imageId) images →
  removeImage imageId images = images.
Proof.
  intros Hothers. unfold removeImage.
  by rewrite find_absent_id, filter_keeps_others.
Qed.

(** C7.  In a collection [before ++ target :: after] whose only entry with
    the given id is [target]: when [target] is featured and other entries
    remain, [removeImage] returns the other entries in order with the first
    of them made featured and the rest as they were; when [target] is not
    featured, it returns the other entries as they were.  In both cases no
    entry of the result has the given id. *)
Theorem removeImage_spec (imageId : string) (before after : list MediaItem)
    (target : MediaItem) :
  MediaItem.id target = imageId →
  Forall (fun img => MediaItem.id img ≠ imageId) (before ++ after) →
  (MediaItem.isFeatured target = true →
   ∀ first rest, before ++ after = first :: rest →
     removeImage imageId (before ++ target :: after)
     = MediaItem.with_isFeatured true first :: rest)
  ∧ (MediaItem.isFeatured target = false →
     removeImage imageId (before ++ target :: after) = before ++ after)
  ∧ Forall (fun img => MediaItem.id img ≠ imageId)
      (removeImage imageId (before ++ target :: after)).
Proof.
  intros Htarget Hothers. rewrite removeImage_target by done.
  split; [|split].
  - intros -> first rest ->. done.
  - intros ->. done.
  - destruct (_ && _); [|done].
    destruct (before ++ after) as [|first rest]; [done|].
    apply Forall_cons in Hothers as [Hfirst Hrest]. by apply Forall_cons.
Qed.

Lemma removeImage_spec_witness :
  removeImage "b" [stored "a" false; stored "b" true; stored "c" false]
  = [stored "a" true; stored "c" false]
  ∧ removeImage "c" [stored "a" false; stored "b" true; stored "c" false]
    = [stored "a" false; stored "b" true].
Proof.
  split.
  - destruct (removeImage_spec "b" [stored "a" false] [stored "c" false]
                (stored "b" true)) as (Hpromote & _ & _);
      [reflexivity | repeat constructor; discriminate |].
    exact (Hpromote eq_refl (stored "a" false) [stored "c" false] eq_refl).
  - destruct (removeImage_spec "c" [stored "a" false; stored "b" true] []
                (stored "c" false)) as (_ & Hkeep & _);
      [reflexivity | repeat constructor; discriminate |].
    exact (Hkeep eq_refl).
Defined.

(** ** The featured invariant *)

Lemma featured_count_app (l1 l2 : list MediaItem) :
  featured_count (l1 ++ l2) = (featured_count l1 + featured_count l2)%nat.
Proof. unfold featured_count. by rewrite filter_app, length_app. Qed.

Lemma featured_count_cons img (l : list MediaItem) :
  featured_count (img :: l)
  = ((if MediaItem.isFeatured img then 1 else 0) + featured_count l)%nat.
Proof.
  unfold featured_count. destruct (MediaItem.isFeatured img) eqn:Hf.
  - by rewrite filter_cons_True.
  - rewrite filter_cons_False; [done | congruence].
Qed.

(** Entries built by a function that never sets the flag. *)
Lemma featured_count_imap_none {A} (g : nat → A → MediaItem) (l : list A) :
  (∀ i x, MediaItem.isFeatured (g i x) = false) →
  featured_count (imap g l) = 0%nat.
Proof.
  revert g. induction l as [|x l IH]; intros g Hg; [done|].
  rewrite imap_cons, featured_count_cons, Hg, IH; [done|].
  intros i y. apply Hg.
Qed.

(** Among the entries made for a non-empty list of valid files, the first
    is featured when the collection was empty, and no other is. *)
Lemma featured_count_new_images uuid objectURL (images : list MediaItem)
    (valid : list File) :
  valid ≠ [] →
  featured_count (imap (new_image uuid objectURL images) valid)
  = if decide (images = []) then 1%nat else 0%nat.
Proof.
  intros Hne. destruct valid as [|file valid]; [done|].
  rewrite imap_cons, featured_count_cons.
  rewrite featured_count_imap_none.
  2:{ intros i x. cbn. apply andb_false_r. }
  cbn. destruct images; done.
Qed.

(** When [handleFileSelect] reaches [onChange], it passes the collection
    followed by the entries of a non-empty list of files. *)
Lemma handleFileSelect_onChange maxImages maxSize uuid objectURL
    (images : list MediaItem) files combined :
  onChange (handleFileSelect maxImages maxSize uuid objectURL false images
              (Some files)) = Some combined →
  ∃ valid : list File,
    valid ≠ [] ∧ combined = images ++ imap (new_image uuid objectURL images) valid.
Proof.
  unfold handleFileSelect. destruct files as [|file files]; [discriminate|].
  destruct (length (slice_to _ _) =? 0)%nat; [discriminate|].
  destruct (length (validFiles _) =? 0)%nat eqn:Hlen; [discriminate|].
  cbn. intros [= <-]. eexists. split; [|reflexivity].
  intros Hnil. rewrite Hnil in Hlen. discriminate.
Qed.

Lemma removeImage_ids_sublist imageId (images : list MediaItem) :
  MediaItem.id <$> removeImage imageId images `sublist_of` MediaItem.id <$> images.
Proof.
  unfold removeImage.
  assert (MediaItem.id <$> filter (fun img => MediaItem.id img ≠ imageId) images
          `sublist_of` MediaItem.id <$> images) as Hsub.
  { apply fmap_sublist, sublist_filter. }
  destruct (_ && _); [|done].
  destruct (filter _ images) as [|first rest]; [done|]. exact Hsub.
Qed.

(** An entry with the id splits the collection around it; with distinct
    ids no other entry has the id. *)
Lemma split_at_id imageId (images : list MediaItem) :
  NoDup (MediaItem.id <$> images) →
  imageId ∈ MediaItem.id <$> images →
  ∃ before target after,
    images = before ++ target :: after
    ∧ MediaItem.id target = imageId
    ∧ Forall (fun img => MediaItem.id img ≠ imageId) (before ++ after).
Proof.
  intros Hnd Hin. apply list_elem_of_fmap in Hin as (target & Hid & Hin).
  apply list_elem_of_split in Hin as (before & after & ->).
  exists before, target, after. repeat split; [done|].
  rewrite fmap_app, fmap_cons in Hnd.
  apply NoDup_app in Hnd as (_ & Hcross & Hnd).
  apply NoDup_cons in Hnd as [Hafter _].
  apply Forall_app. split; apply Forall_forall; intros img Himg Heq.
  - apply (Hcross (MediaItem.id img)); [by apply list_elem_of_fmap_2|].
    rewrite Heq, Hid. apply list_elem_of_here.
  - apply Hafter. rewrite <- Hid, <- Heq. by apply list_elem_of_fmap_2.
Qed.

Lemma not_in_ids imageId (images : list MediaItem) :
  imageId ∉ MediaItem.id <$> images →
  Forall (fun img => MediaItem.id img ≠ imageId) images.
Proof.
  intros Hno. apply Forall_forall. intros img Himg Heq. apply Hno.
  rewrite <- Heq. by apply list_elem_of_fmap_2.
Qed.

Lemma removeImage_invariant imageId (images : list MediaItem) :
  NoDup (MediaItem.id <$> images) →
  featured_invariant images →
  featured_invariant (removeImage imageId images).
Proof.
  intros Hnd Hinv.
  destruct (decide (imageId ∈ MediaItem.id <$> images)) as [Hin|Hno].
  2:{ by rewrite removeImage_absent by by apply not_in_ids. }
  destruct (split_at_id imageId images Hnd Hin)
    as (before & target & after & -> & Hid & Hothers).
  rewrite removeImage_target by done.
  unfold featured_invariant in *.
  rewrite decide_False in Hinv by (by destruct before).
  rewrite featured_count_app, featured_count_cons in Hinv.
  pose proof (featured_count_app before after) as Happ.
  destruct (MediaItem.isFeatured target); cbn [andb].
  - assert (featured_count (before ++ after) = 0%nat) as Hzero by lia.
    destruct (before ++ after) as [|first rest]; [reflexivity|].
    change (featured_count (MediaItem.with_isFeatured true first :: rest)
            = if decide (MediaItem.with_isFeatured true first :: rest = [])
              then 1%nat - 1%nat else 1%nat)%nat.
    rewrite decide_False by done.
    rewrite featured_count_cons in Hzero |- *.
    cbn [MediaItem.with_isFeatured MediaItem.isFeatured]. lia.
  - assert (featured_count (before ++ after) = 1%nat) as Hone by lia.
    rewrite Hone. destruct (before ++ after); [discriminate Hone|].
    by rewrite decide_False.
Qed.

(** One operation issued under [op_ok] keeps the ids distinct and the
    featured invariant. *)
Lemma apply_op_invariant maxImages maxSize (images : list MediaItem) op :
  NoDup (MediaItem.id <$> images) →
  featured_invariant images →
  op_ok maxImages maxSize images op →
  NoDup (MediaItem.id <$> apply_op maxImages maxSize images op)
  ∧ featured_invariant (apply_op maxImages maxSize images op).
Proof.
  intros Hnd Hinv Hok. destruct op as [files uuid objectURL|imageId|imageId].
  - split; [exact Hok|]. cbn [apply_op].
    destruct (onChange _) as [combined|] eqn:Hchange; [|done].
    apply handleFileSelect_onChange in Hchange as (valid & Hne & ->).
    unfold featured_invariant in *. cbn [default from_option]. unfold id.
    rewrite featured_count_app, featured_count_new_images, Hinv by done.
    destruct images as [|img images].
    + destruct valid as [|file valid]; [done|].
      rewrite !decide_True by done. by rewrite decide_False.
    + rewrite !decide_False by done. done.
  - cbn [apply_op]. split; [|by apply removeImage_invariant].
    eapply sublist_NoDup; [exact Hnd | apply removeImage_ids_sublist].
  - cbn [apply_op op_ok] in *. split; [by rewrite setFeaturedImage_ids|].
    unfold featured_invariant.
    rewrite setFeaturedImage_count, filter_id_unique by done.
    rewrite decide_False; [done|].
    destruct images; [by apply not_elem_of_nil in Hok | done].
Qed.

(** C1, as the code has it.  From a collection with distinct ids that
    satisfies the featured invariant, the empty one for instance, every
    sequence of [addFiles], [remove] and [setFeatured] operations in which
    each [setFeatured] names an entry of the collection and each [addFiles]
    draws identifiers new to the collection ends in a collection that has
    exactly one featured entry when it is not empty and none when it is
    empty, and whose ids are still distinct. *)
Theorem featured_invariant_preserved (maxImages maxSize : Z)
    (ops : list Op) (images : list MediaItem) :
  NoDup (MediaItem.id <$> images) →
  featured_invariant images →
  ops_ok maxImages maxSize images ops →
  featured_invariant (run maxImages maxSize images ops)
  ∧ NoDup (MediaItem.id <$> run maxImages maxSize images ops).
Proof.
  revert images. induction ops as [|op ops IH]; intros images Hnd Hinv Hok.
  - done.
  - destruct Hok as [Hop Hrest].
    destruct (apply_op_invariant maxImages maxSize images op Hnd Hinv Hop)
      as [Hnd' Hinv'].
    exact (IH _ Hnd' Hinv' Hrest).
Qed.

Lemma featured_invariant_preserved_witness :
  featured_invariant (run 10 5 [] session)
  ∧ NoDup (MediaItem.id <$> run 10 5 [] session).
Proof.
  apply (featured_invariant_preserved 10 5 session []).
  - constructor.
  - reflexivity.
  - unfold session. cbn [ops_ok op_ok].
    repeat split; apply (bool_decide_unpack _); vm_compute; exact I.
Defined.

(** C1 as the specification words it fails: starting from the empty
    collection, adding one file and then calling [setFeaturedImage] with an
    id that no entry has leaves a collection of one entry with no featured
    entry. *)
Lemma featured_invariant_lost :
  run 10 5 [] [AddFiles [photo_png] uuid_n blob_n; SetFeatured "new-gone"] ≠ []
  ∧ featured_count
      (run 10 5 [] [AddFiles [photo_png] uuid_n blob_n; SetFeatured "new-gone"])
    = 0%nat
  ∧ ¬ featured_invariant
        (run 10 5 [] [AddFiles [photo_png] uuid_n blob_n; SetFeatured "new-gone"]).
Proof.
  split; [vm_compute; discriminate|]. split; [reflexivity|].
  vm_compute. discriminate.
Qed.

(** ** Capacity *)

Lemma validator_calls_notify {A} (g : A → Toast) (l : list A) :
  validator_calls ((fun x => Notify (g x)) <$> l) = [].
Proof. induction l as [|x l IH]; [done|]. exact IH. Qed.

Lemma validator_calls_app (l1 l2 : list Event) :
  validator_calls (l1 ++ l2) = validator_calls l1 ++ validator_calls l2.
Proof. apply omap_app. Qed.

Lemma validator_calls_call files options (l : list Event) :
  validator_calls (CallValidateFiles files options :: l)
  = (files, options) :: validator_calls l.
Proof. reflexivity. Qed.

(** With a count of free slots that is not negative, the slice is the
    prefix of that many files, or all of them when there are fewer. *)
Lemma slice_to_take {A} (k : Z) (arr : list A) :
  0 <= k →
  slice_to k arr = take (Z.to_nat (Z.min k (Z.of_nat (length arr)))) arr.
Proof.
  intros Hk. unfold slice_to.
  destruct (k <? 0) eqn:Hneg; [apply Z.ltb_lt in Hneg; lia | done].
Qed.

Lemma slice_to_prefix {A} (k : Z) (arr : list A) :
  0 <= k →
  slice_to k (take (Z.to_nat (Z.min k (Z.of_nat (length arr)))) arr)
  = take (Z.to_nat (Z.min k (Z.of_nat (length arr)))) arr.
Proof.
  intros Hk. rewrite slice_to_take by done. apply take_ge.
  rewrite !length_take. lia.
Qed.

(** The events and the result of a call that gets past the capacity
    check depend on the files only through the slice. *)
Lemma handleFileSelect_after_slice maxImages maxSize uuid objectURL
    (images : list MediaItem) (files files' : list File) :
  files ≠ [] → files' ≠ [] →
  slice_to (maxImages - Z.of_nat (length images)) files
  = slice_to (maxImages - Z.of_nat (length images)) files' →
  handleFileSelect maxImages maxSize uuid objectURL false images (Some files)
  = handleFileSelect maxImages maxSize uuid objectURL false images (Some files').
Proof.
  intros Hne Hne' Hslice. unfold handleFileSelect.
  destruct files as [|f files]; [done|]. destruct files' as [|f' files']; [done|].
  by rewrite Hslice.
Qed.

Lemma validator_calls_of_call maxSize (images : list MediaItem)
    (filesToAdd : list File) (tail : list Event) :
  let options := validation_options maxSize images in
  let result := validateFiles filesToAdd options in
  validator_calls tail = [] →
  validator_calls
    ((CallValidateFiles filesToAdd options
      :: ((fun e => Notify (ToastInvalid (InvalidEntry.name e)
                              (InvalidEntry.reason e)))
            <$> invalid result)
      ++ (if (0 <? length (duplicates result))%nat
          then [Notify (ToastDuplicates (duplicates result))]
          else []))
     ++ tail)
  = [(filesToAdd, options)].
Proof.
  cbv zeta. intros Htail.
  rewrite validator_calls_app, Htail, app_nil_r.
  rewrite validator_calls_call, validator_calls_app.
  rewrite (validator_calls_notify
             (fun e => ToastInvalid (InvalidEntry.name e) (InvalidEntry.reason e))).
  by destruct (0 <? _)%nat.
Qed.

(** C6, as the code has it.  A call of [handleFileSelect] with a
    non-empty batch, while no other call is in progress, on a collection
    with [k >= 0] free slots: when [k > 0] the validator is called once,
    with the first [min k (length files)] files in input order, and the
    call behaves as if only those files had been given; when [k = 0] the
    validator is not called, an error is notified and [onChange] is not
    called. *)
Theorem handleFileSelect_capacity (maxImages maxSize : Z)
    (uuid objectURL : nat → string) (images : list MediaItem)
    (files : list File) :
  files ≠ [] →
  0 <= maxImages - Z.of_nat (length images) →
  let k := maxImages - Z.of_nat (length images) in
  let passed := take (Z.to_nat (Z.min k (Z.of_nat (length files)))) files in
  let out :=
    handleFileSelect maxImages maxSize uuid objectURL false images (Some files) in
  (0 < k →
   validator_calls (events out) = [(passed, validation_options maxSize images)]
   ∧ out = handleFileSelect maxImages maxSize uuid objectURL false images
             (Some passed))
  ∧ (k = 0 →
     validator_calls (events out) = []
     ∧ reports_failure out
     ∧ onChange out = None).
Proof.
  intros Hne Hk. cbv zeta. split.
  - intros Hpos. split.
    + unfold handleFileSelect. destruct files as [|f files]; [done|].
      rewrite slice_to_take by done.
      set (passed := take _ (f :: files)).
      assert ((length passed =? 0)%nat = false) as ->.
      { apply Nat.eqb_neq. subst passed. rewrite length_take.
        cbn [length]. lia. }
      destruct (length (validFiles _) =? 0)%nat; cbn [events];
        apply validator_calls_of_call; [|done].
      by destruct (_ && _).
    + apply handleFileSelect_after_slice; [done| |].
      * destruct files as [|f files]; [done|].
        intros Hnil. apply (f_equal length) in Hnil.
        rewrite length_take in Hnil. cbn [length] in Hnil. lia.
      * by rewrite slice_to_prefix, slice_to_take.
  - intros Hzero. unfold handleFileSelect.
    destruct files as [|f files]; [done|].
    rewrite slice_to_take by done. rewrite Hzero. cbn.
    split; [done|]. split; [|done].
    exists (ToastLimit maxImages). split; [apply list_elem_of_here | done].
Qed.

Lemma handleFileSelect_capacity_witness :
  validator_calls
    (events (handleFileSelect 3 5 uuid_n blob_n false [stored "a" true]
               (Some [photo_png; logo_png; banner_webp; odd_type])))
  = [([photo_png; logo_png], validation_options 5 [stored "a" true])]
  ∧ reports_failure
      (handleFileSelect 1 5 uuid_n blob_n false [stored "a" true]
         (Some [photo_png; logo_png])).
Proof.
  split.
  - destruct (handleFileSelect_capacity 3 5 uuid_n blob_n [stored "a" true]
                [photo_png; logo_png; banner_webp; odd_type])
      as [Hsome _]; [discriminate | by vm_compute |].
    destruct Hsome as [Hcalls _]; [by vm_compute|]. exact Hcalls.
  - destruct (handleFileSelect_capacity 1 5 uuid_n blob_n [stored "a" true]
                [photo_png; logo_png])
      as [_ Hfull]; [discriminate | by vm_compute |].
    destruct Hfull as (_ & Hfail & _); [reflexivity|]. exact Hfail.
Defined.

(** C6 as the specification words it fails: with no free slot and an empty
    batch the call returns at once, and no failure is reported. *)
Lemma handleFileSelect_empty_batch_silent :
  1 - Z.of_nat (length [stored "a" true]) = 0
  ∧ ¬ reports_failure
        (handleFileSelect 1 5 uuid_n blob_n false [stored "a" true] (Some [])).
Proof.
  split; [reflexivity|]. intros (t & Hin & _). cbn in Hin.
  by apply not_elem_of_nil in Hin.
Qed.

(** A collection longer than [maxImages] makes the count of free slots
    negative, and the slice then drops files from the end of the batch
    instead of all of them: the validator is called. *)
Lemma handleFileSelect_over_capacity :
  validator_calls
    (events (handleFileSelect 1 5 uuid_n blob_n false
               [stored "a" true; stored "b" false]
               (Some [photo_png; logo_png; banner_webp])))
  = [([photo_png; logo_png],
      validation_options 5 [stored "a" true; stored "b" false])].
Proof. reflexivity. Qed.

(** ** The scenarios of the specification *)

(** Three small PNG files and no existing file: all three are valid. *)
Example scenario_all_valid :
  validateFiles [photo_png; logo_png; File.mk "c.png" 7 "image/png" 3] no_options
  = {| validFiles := [photo_png; logo_png; File.mk "c.png" 7 "image/png" 3];
       duplicates := []; invalid := [] |}.
Proof. reflexivity. Qed.

(** The same file twice in a batch: valid once, duplicate once. *)
Example scenario_duplicate_in_batch :
  validateFiles [photo_png; photo_png] no_options
  = {| validFiles := [photo_png]; duplicates := ["photo.png"]; invalid := [] |}.
Proof. reflexivity. Qed.

(** A PNG of 6 MiB against the limit of 5: invalid for its size. *)
Example scenario_too_large :
  validateFiles [File.mk "big.png" (6 * 1024 * 1024) "image/png" 1]
    (mkOptions (Some 5) None None)
  = only_invalid (File.mk "big.png" (6 * 1024 * 1024) "image/png" 1)
      (sizeReason 5).
Proof. reflexivity. Qed.

(** A video against the default types: invalid for its type. *)
Example scenario_video :
  validateFiles [File.mk "clip.mp4" 1024 "video/mp4" 1700000003000] no_options
  = only_invalid (File.mk "clip.mp4" 1024 "video/mp4" 1700000003000) typeReason.
Proof. reflexivity. Qed.

(** Five candidates and two free slots: the validator gets the first two. *)
Example scenario_two_slots :
  validator_calls
    (events
       (handleFileSelect 3 5 uuid_n blob_n false [stored "a" true]
          (Some [photo_png; logo_png; banner_webp; odd_type; photo_png])))
  = [([photo_png; logo_png], validation_options 5 [stored "a" true])].
Proof. reflexivity. Qed.

(** Removing the featured entry of three promotes the first that remains. *)
Example scenario_remove_featured :
  removeImage "a" [stored "a" true; stored "b" false; stored "c" false]
  = [stored "b" true; stored "c" false].
Proof. reflexivity. Qed.

(** The session ends with one entry, which is featured. *)
Example session_result :
  (fun img => (MediaItem.id img, MediaItem.isFeatured img))
    <$> run 10 5 [] session
  = [("new-0000-2", true)].
Proof. reflexivity. Qed.

(** ** Signatures *)

Lemma occurs_app c (s t : string) :
  occurs c (s +:+ t) = occurs c s || occurs c t.
Proof.
  induction s as [|d s IH]; [done|].
  rewrite string_app_cons. cbn [occurs]. by rewrite IH, orb_assoc.
Qed.

(** Two texts cut at their first [c] are equal part by part. *)
Lemma app_sep_inj c (s1 s2 r1 r2 : string) :
  occurs c s1 = false → occurs c s2 = false →
  s1 +:+ String c r1 = s2 +:+ String c r2 → s1 = s2 ∧ r1 = r2.
Proof.
  revert s2. induction s1 as [|d s1 IH]; intros [|e s2] H1 H2 Heq.
  - rewrite !string_app_nil_l in Heq. by injection Heq.
  - rewrite string_app_nil_l, string_app_cons in Heq. injection Heq as <- _.
    cbn in H2. by rewrite Ascii.eqb_refl in H2.
  - rewrite string_app_nil_l, string_app_cons in Heq. injection Heq as -> _.
    cbn in H1. by rewrite Ascii.eqb_refl in H1.
  - rewrite !string_app_cons in Heq. injection Heq as -> Heq.
    cbn in H1, H2. apply orb_false_iff in H1 as [_ H1].
    apply orb_false_iff in H2 as [_ H2].
    destruct (IH s2 H1 H2 Heq) as [-> ->]. done.
Qed.

Lemma pretty_N_char_not_bar d : Ascii.eqb (pretty_N_char d) "|" = false.
Proof. unfold pretty_N_char. by repeat case_match. Qed.

Lemma pretty_N_go_no_bar (x : N) (s : string) :
  occurs "|" s = false → occurs "|" (pretty_N_go x s) = false.
Proof.
  revert s. induction (N.lt_wf_0 x) as [x _ IH]; intros s Hs.
  assert (x = 0 ∨ 0 < x)%N as [->|Hpos] by lia.
  - by rewrite pretty_N_go_0.
  - rewrite pretty_N_go_step by done. apply IH; [by apply N.div_lt|].
    cbn [occurs]. by rewrite pretty_N_char_not_bar.
Qed.

Lemma pretty_N_no_bar (x : N) : occurs "|" (pretty x) = false.
Proof.
  unfold pretty, pretty_N. case_decide; [done|]. by apply pretty_N_go_no_bar.
Qed.

(** The decimal text of an integer has no ['|']. *)
Lemma pretty_Z_no_bar (x : Z) : occurs "|" (pretty x) = false.
Proof.
  destruct x as [|p|p]; [done| |].
  - apply (pretty_N_no_bar (N.pos p)).
  - change (pretty (Z.neg p)) with ("-" +:+ pretty (N.pos p)).
    rewrite occurs_app, (pretty_N_no_bar (N.pos p)). done.
Qed.

(** X1.  Files whose name and type have no ['|'] have the same signature only
    when their four fields are the same: the signature identifies the
    metadata, and [areFilesIdentical] decides equality of the metadata. *)
Theorem createFileSignature_inj (file1 file2 : File) :
  occurs "|" (File.name file1) = false →
  occurs "|" (File.type file1) = false →
  occurs "|" (File.name file2) = false →
  occurs "|" (File.type file2) = false →
  (createFileSignature file1 = createFileSignature file2 ↔ file1 = file2)
  ∧ (areFilesIdentical file1 file2 = true ↔ file1 = file2).
Proof.
  intros Hn1 Ht1 Hn2 Ht2.
  assert (createFileSignature file1 = createFileSignature file2 ↔ file1 = file2)
    as Hsig.
  { split; [|by intros ->].
    destruct file1 as [n1 z1 t1 m1], file2 as [n2 z2 t2 m2].
    unfold createFileSignature. cbn in *. intros Heq.
    change ("|" +:+ ?s) with (String "|" s) in Heq.
    apply app_sep_inj in Heq as [-> Heq]; [|done..].
    apply app_sep_inj in Heq as [Hz Heq]; [|apply pretty_Z_no_bar..].
    apply app_sep_inj in Heq as [-> Hm]; [|done..].
    apply (inj pretty) in Hz. apply (inj pretty) in Hm. by subst. }
  split; [exact Hsig|].
  unfold areFilesIdentical. by rewrite bool_decide_eq_true.
Qed.

Lemma createFileSignature_inj_witness :
  areFilesIdentical photo_png logo_png = true ↔ photo_png = logo_png.
Proof.
  apply (createFileSignature_inj photo_png logo_png); reflexivity.
Defined.

(** The precondition is needed: a ['|'] in a name or a type can make the
    signatures of two different files equal. *)
Example signature_collision :
  File.mk "a|1" 2 "t" 3 ≠ File.mk "a" 1 "2|t" 3
  ∧ areFilesIdentical (File.mk "a|1" 2 "t" 3) (File.mk "a" 1 "2|t" 3) = true.
Proof. split; [discriminate | reflexivity]. Qed.

(** ** The validator as a function of the signatures seen *)

Lemma rejection_options options files file :
  rejection (add_existing_files files options) file = rejection options file.
Proof. reflexivity. Qed.

(** One iteration, by the checks and the signatures seen so far. *)
Lemma validate_file_cases options (existing processed : gset string)
    (result : FileValidationResult) file :
  validate_file (default 5 (maxFileSize options))
    (default default_allowedTypes (allowedTypes options))
    existing (result, processed) file
  = match rejection options file with
    | Some e => (push_invalid e result, processed)
    | None =>
        if bool_decide (createFileSignature file ∈ existing ∪ processed)
        then (push_duplicate (File.name file) result, processed)
        else (push_valid file result,
              {[createFileSignature file]} ∪ processed)
    end.
Proof.
  unfold validate_file, rejection.
  destruct (File.size file >? _); [done|].
  destruct (negb _); [done|].
  destruct (decide (createFileSignature file ∈ existing)) as [Hin|Hout].
  - rewrite !bool_decide_eq_true_2; [done | set_solver | done].
  - rewrite (bool_decide_eq_false_2 _ Hout).
    destruct (decide (createFileSignature file ∈ processed)) as [Hin'|Hout'].
    + rewrite !bool_decide_eq_true_2; [done | set_solver | done].
    + rewrite !bool_decide_eq_false_2; [done | set_solver | done].
Qed.

Lemma passes_checks_None options file :
  rejection options file = None → passes_checks options file = true.
Proof. intros H. unfold passes_checks. by apply bool_decide_eq_true. Qed.

Lemma passes_checks_Some options file e :
  rejection options file = Some e → passes_checks options file = false.
Proof.
  intros H. unfold passes_checks. apply bool_decide_eq_false. by rewrite H.
Qed.

(** The loop from any state: the buckets grow by what [accepted],
    [repeated] and [rejection] give for the signatures seen so far, and the
    processed signatures by those of the accepted files. *)
Lemma validate_loop_seen options (existing : gset string) (files : list File) :
  ∀ (result : FileValidationResult) (processed : gset string),
    fold_left
      (validate_file (default 5 (maxFileSize options))
         (default default_allowedTypes (allowedTypes options)) existing)
      files (result, processed)
    = (append_results result
         {| validFiles := accepted options (existing ∪ processed) files;
            duplicates := repeated options (existing ∪ processed) files;
            invalid := omap (rejection options) files |},
       list_to_set
         (createFileSignature
            <$> accepted options (existing ∪ processed) files)
       ∪ processed).
Proof.
  induction files as [|file files IH]; intros result processed.
  - cbn. unfold append_results. cbn. rewrite !app_nil_r.
    destruct result. f_equal. set_solver.
  - cbn [fold_left]. rewrite validate_file_cases.
    cbn [accepted repeated omap].
    destruct (rejection options file) as [e|] eqn:Hrej.
    + rewrite (passes_checks_Some _ _ _ Hrej). cbn [andb]. rewrite IH.
      unfold append_results, push_invalid. cbn. rewrite Hrej.
      by rewrite <- !app_assoc.
    + rewrite (passes_checks_None _ _ Hrej). cbn [andb].
      destruct (bool_decide (createFileSignature file ∈ existing ∪ processed))
        eqn:Hseen; cbn [negb]; rewrite IH.
      * unfold append_results, push_duplicate. cbn. rewrite Hrej.
        by rewrite <- !app_assoc.
      * replace (existing ∪ ({[createFileSignature file]} ∪ processed))
          with ({[createFileSignature file]} ∪ (existing ∪ processed))
          by set_solver.
        unfold append_results, push_valid. cbn. rewrite Hrej, <- !app_assoc.
        f_equal. set_solver.
Qed.

(** [validateFiles] in these terms. *)
Lemma validateFiles_seen files options :
  validateFiles files options
  = {| validFiles := accepted options (existing_signatures options) files;
       duplicates := repeated options (existing_signatures options) files;
       invalid := omap (rejection options) files |}.
Proof.
  unfold validateFiles. rewrite validate_loop_seen. cbn [fst].
  unfold append_results, empty_result, existing_signatures. cbn.
  by replace (list_to_set
                (createFileSignature <$> default [] (existingFiles options))
              ∪ (∅ : gset string))
    with (list_to_set
            (createFileSignature <$> default [] (existingFiles options))
          : gset string) by set_solver.
Qed.

Lemma passes_checks_iff options file :
  passes_checks options file = true
  ↔ within_size_limit file options ∧ type_allowed file options.
Proof.
  unfold passes_checks, rejection, within_size_limit.
  rewrite bool_decide_eq_true, <- type_allowed_existsb.
  destruct (File.size file >? _) eqn:Hsize.
  - split; [discriminate|]. intros [Hle _].
    rewrite Z.gtb_ltb in Hsize. apply Z.ltb_lt in Hsize. lia.
  - rewrite Z.gtb_ltb in Hsize. apply Z.ltb_ge in Hsize.
    destruct (existsb _ _); cbn; split; try done.
    + intros [_ H]. discriminate H.
Qed.

Lemma existing_signatures_known options file :
  createFileSignature file ∈ existing_signatures options
  ↔ signature_known file options.
Proof. apply signature_known_set. Qed.

Lemma existing_signatures_add files options :
  existing_signatures (add_existing_files files options)
  = list_to_set (createFileSignature <$> files) ∪ existing_signatures options.
Proof.
  unfold existing_signatures, add_existing_files. cbn [existingFiles default
    from_option]. unfold id. rewrite fmap_app, list_to_set_app_L. set_solver.
Qed.

Lemma accepted_options files options :
  ∀ seen more,
    accepted (add_existing_files more options) seen files
    = accepted options seen files.
Proof.
  induction files as [|file files IH]; intros seen more; [done|].
  cbn [accepted]. unfold passes_checks. rewrite rejection_options.
  by rewrite !IH.
Qed.

Lemma repeated_options files options :
  ∀ seen more,
    repeated (add_existing_files more options) seen files
    = repeated options seen files.
Proof.
  induction files as [|file files IH]; intros seen more; [done|].
  cbn [repeated]. unfold passes_checks. rewrite rejection_options.
  by rewrite !IH.
Qed.

Lemma accepted_sublist options files :
  ∀ seen, accepted options seen files `sublist_of` files.
Proof.
  induction files as [|file files IH]; intros seen; [done|].
  cbn [accepted]. destruct (_ && _).
  - by apply sublist_skip.
  - by apply sublist_cons.
Qed.

(** An accepted file passes the checks and brings a signature not seen. *)
Lemma accepted_fresh options files :
  ∀ seen file,
    file ∈ accepted options seen files →
    passes_checks options file = true ∧ createFileSignature file ∉ seen.
Proof.
  induction files as [|f files IH]; intros seen file Hin.
  - by apply not_elem_of_nil in Hin.
  - cbn [accepted] in Hin.
    destruct (passes_checks options f) eqn:Hp; cbn [andb] in Hin.
    2:{ by apply IH. }
    destruct (bool_decide (createFileSignature f ∈ seen)) eqn:Hs;
      cbn [negb] in Hin.
    { by apply IH. }
    apply bool_decide_eq_false in Hs.
    apply elem_of_cons in Hin as [->|Hin]; [done|].
    apply IH in Hin as [Hp' Hfresh]. split; [done|]. set_solver.
Qed.

Lemma accepted_NoDup options files :
  ∀ seen, NoDup (createFileSignature <$> accepted options seen files).
Proof.
  induction files as [|f files IH]; intros seen; [constructor|].
  cbn [accepted]. destruct (_ && _); [|apply IH].
  rewrite fmap_cons. apply NoDup_cons. split; [|apply IH].
  intros Hin. apply list_elem_of_fmap in Hin as (g & Hsig & Hg).
  apply accepted_fresh in Hg as [_ Hfresh]. set_solver.
Qed.

(** A file that passes the checks has its signature seen before or among
    the accepted ones. *)
Lemma accepted_covers options files :
  ∀ seen file,
    file ∈ files → passes_checks options file = true →
    createFileSignature file ∈ seen
    ∨ createFileSignature file
      ∈ createFileSignature <$> accepted options seen files.
Proof.
  induction files as [|f files IH]; intros seen file Hin Hp.
  - by apply not_elem_of_nil in Hin.
  - cbn [accepted]. apply elem_of_cons in Hin as [->|Hin].
    + rewrite Hp. cbn [andb].
      destruct (bool_decide (createFileSignature f ∈ seen)) eqn:Hs; cbn [negb].
      * left. by apply bool_decide_eq_true in Hs.
      * right. rewrite fmap_cons. apply list_elem_of_here.
    + destruct (_ && _).
      * destruct (IH ({[createFileSignature f]} ∪ seen) file Hin Hp)
          as [Hseen|Hacc].
        -- apply elem_of_union in Hseen as [Hf|Hseen]; [|by left].
           apply elem_of_singleton in Hf. right. rewrite fmap_cons, Hf.
           apply list_elem_of_here.
        -- right. rewrite fmap_cons. by apply list_elem_of_further.
      * by apply IH.
Qed.

Lemma accepted_app options (b1 b2 : list File) :
  ∀ seen,
    accepted options seen (b1 ++ b2)
    = accepted options seen b1
      ++ accepted options
           (list_to_set (createFileSignature <$> accepted options seen b1)
            ∪ seen) b2.
Proof.
  induction b1 as [|f b1 IH]; intros seen.
  - cbn. f_equal. set_solver.
  - cbn [app accepted]. destruct (_ && _).
    + rewrite IH, fmap_cons, list_to_set_cons.
      replace (list_to_set
                 (createFileSignature
                    <$> accepted options ({[createFileSignature f]} ∪ seen) b1)
               ∪ ({[createFileSignature f]} ∪ seen))
        with ({[createFileSignature f]}
              ∪ list_to_set
                  (createFileSignature
                     <$> accepted options ({[createFileSignature f]} ∪ seen) b1)
              ∪ seen) by set_solver.
      done.
    + apply IH.
Qed.

Lemma repeated_app options (b1 b2 : list File) :
  ∀ seen,
    repeated options seen (b1 ++ b2)
    = repeated options seen b1
      ++ repeated options
           (list_to_set (createFileSignature <$> accepted options seen b1)
            ∪ seen) b2.
Proof.
  induction b1 as [|f b1 IH]; intros seen.
  - cbn. f_equal. set_solver.
  - cbn [app accepted repeated].
    destruct (passes_checks options f); cbn [andb]; [|apply IH].
    destruct (bool_decide _); cbn [negb].
    + rewrite IH. done.
    + rewrite IH, fmap_cons, list_to_set_cons.
      replace (list_to_set
                 (createFileSignature
                    <$> accepted options ({[createFileSignature f]} ∪ seen) b1)
               ∪ ({[createFileSignature f]} ∪ seen))
        with ({[createFileSignature f]}
              ∪ list_to_set
                  (createFileSignature
                     <$> accepted options ({[createFileSignature f]} ∪ seen) b1)
              ∪ seen) by set_solver.
      done.
Qed.

(** When every file that passes the checks has a signature already seen,
    none is accepted and each of them is reported by name. *)
Lemma accepted_all_seen options files :
  ∀ seen,
    (∀ file, file ∈ files → passes_checks options file = true →
             createFileSignature file ∈ seen) →
    accepted options seen files = []
    ∧ repeated options seen files
      = File.name <$> filter (fun f => passes_checks options f = true) files.
Proof.
  induction files as [|f files IH]; intros seen Hall; [done|].
  cbn [accepted repeated].
  destruct (IH seen) as [Ha Hr].
  { intros file Hin. apply Hall. by apply list_elem_of_further. }
  destruct (passes_checks options f) eqn:Hp; cbn [andb].
  - rewrite bool_decide_eq_true_2 by (apply Hall; [apply list_elem_of_here|done]).
    cbn [negb]. rewrite filter_cons_True by done. by rewrite Ha, Hr.
  - rewrite filter_cons_False by congruence. done.
Qed.

(** Files that pass the checks, with pairwise different signatures none of
    which is seen, are all accepted. *)
Lemma accepted_all_new options files :
  ∀ seen,
    Forall (fun f => passes_checks options f = true) files →
    NoDup (createFileSignature <$> files) →
    (∀ file, file ∈ files → createFileSignature file ∉ seen) →
    accepted options seen files = files ∧ repeated options seen files = [].
Proof.
  induction files as [|f files IH]; intros seen Hp Hnd Hnew; [done|].
  apply Forall_cons in Hp as [Hpf Hp]. rewrite fmap_cons in Hnd.
  apply NoDup_cons in Hnd as [Hf Hnd].
  cbn [accepted repeated]. rewrite Hpf. cbn [andb].
  rewrite bool_decide_eq_false_2 by (apply Hnew, list_elem_of_here).
  cbn [negb].
  destruct (IH ({[createFileSignature f]} ∪ seen) Hp Hnd) as [-> ->]; [|done].
  intros file Hin Hseen. apply elem_of_union in Hseen as [Heq|Hseen].
  - apply elem_of_singleton in Heq. apply Hf. rewrite <- Heq.
    by apply list_elem_of_fmap_2.
  - apply (Hnew file); [by apply list_elem_of_further | done].
Qed.

(** ** What the validator accepts, rejects and repeats *)

(** X2.  The valid files of a batch, for every batch and every options record:
    they are files of the batch in the order of the batch, their
    signatures are pairwise different, and each is within the size limit,
    of an allowed type and unknown to the existing files. *)
Theorem validateFiles_valid_files (files : list File)
    (options : FileValidationOptions) :
  let valid := validFiles (validateFiles files options) in
  valid `sublist_of` files
  ∧ NoDup (createFileSignature <$> valid)
  ∧ Forall (fun file => within_size_limit file options
                        ∧ type_allowed file options
                        ∧ ¬ signature_known file options) valid.
Proof.
  cbv zeta. rewrite validateFiles_seen. cbn [validFiles].
  split; [apply accepted_sublist|]. split; [apply accepted_NoDup|].
  apply Forall_forall. intros file Hin.
  apply accepted_fresh in Hin as [Hp Hfresh].
  apply passes_checks_iff in Hp as [Hsize Htype].
  repeat split; [done..|]. by rewrite <- existing_signatures_known.
Qed.

(** X3.  No signature is lost: a file of the batch that is within the size
    limit and of an allowed type has the signature of an existing file or
    of one of the valid files. *)
Theorem validateFiles_covers (files : list File)
    (options : FileValidationOptions) (file : File) :
  file ∈ files →
  within_size_limit file options →
  type_allowed file options →
  signature_known file options
  ∨ createFileSignature file
    ∈ createFileSignature <$> validFiles (validateFiles files options).
Proof.
  intros Hin Hsize Htype. rewrite validateFiles_seen. cbn [validFiles].
  rewrite <- existing_signatures_known. apply accepted_covers; [done|].
  by apply passes_checks_iff.
Qed.

Lemma validateFiles_covers_witness :
  signature_known photo_png no_options
  ∨ createFileSignature photo_png
    ∈ createFileSignature
        <$> validFiles (validateFiles [logo_png; photo_png; photo_png] no_options).
Proof.
  apply (validateFiles_covers [logo_png; photo_png; photo_png] no_options
           photo_png).
  - apply list_elem_of_further, list_elem_of_here.
  - by vm_compute.
  - exists "image/png". split; [apply list_elem_of_here | by right].
Defined.

(** X4.  The invalid bucket is decided file by file, by size first and type
    second, in the order of the batch; the existing files play no part. *)
Theorem validateFiles_invalid (files existing : list File)
    (options : FileValidationOptions) :
  invalid (validateFiles files options) = omap (rejection options) files
  ∧ invalid (validateFiles files (add_existing_files existing options))
    = invalid (validateFiles files options).
Proof.
  rewrite !validateFiles_seen. cbn [invalid]. split; reflexivity.
Qed.

(** X5.  Validating a batch in two parts, with the valid files of the first
    part added to the existing files before the second, gives bucket by
    bucket the result of validating the whole batch at once. *)
Theorem validateFiles_app (batch1 batch2 : list File)
    (options : FileValidationOptions) :
  validateFiles (batch1 ++ batch2) options
  = append_results
      (validateFiles batch1 options)
      (validateFiles batch2
         (add_existing_files (validFiles (validateFiles batch1 options))
            options)).
Proof.
  rewrite !validateFiles_seen. unfold append_results. cbn [validFiles
    duplicates invalid].
  rewrite accepted_app, repeated_app, omap_app.
  rewrite existing_signatures_add, accepted_options, repeated_options.
  reflexivity.
Qed.

(** X6.  Submitting a batch again after its valid files have been added to the
    existing files accepts nothing: every file that passes the size and
    type checks is reported as a duplicate, and the invalid bucket is the
    same as the first time. *)
Theorem validateFiles_resubmit (files : list File)
    (options : FileValidationOptions) :
  let first := validateFiles files options in
  let second :=
    validateFiles files (add_existing_files (validFiles first) options) in
  validFiles second = []
  ∧ duplicates second
    = File.name <$> filter (fun f => passes_checks options f = true) files
  ∧ invalid second = invalid first.
Proof.
  cbv zeta.
  destruct (accepted_all_seen options files
              (existing_signatures
                 (add_existing_files (validFiles (validateFiles files options))
                    options))) as [Ha Hr].
  { intros file Hin Hp. rewrite existing_signatures_add.
    rewrite (validateFiles_seen files options). cbn [validFiles].
    destruct (accepted_covers options files (existing_signatures options)
                file Hin Hp) as [Hseen|Hacc].
    - by apply elem_of_union_r.
    - apply elem_of_union_l. by apply elem_of_list_to_set. }
  rewrite (validateFiles_seen files (add_existing_files _ _)).
  cbn [validFiles duplicates invalid].
  rewrite accepted_options, repeated_options.
  split; [exact Ha|]. split; [exact Hr|].
  rewrite (validateFiles_seen files options). reflexivity.
Qed.

(** X7.  Validating the valid files of a batch again, with the same options,
    accepts all of them and reports nothing. *)
Theorem validateFiles_revalidate (files : list File)
    (options : FileValidationOptions) :
  let valid := validFiles (validateFiles files options) in
  validateFiles valid options
  = {| validFiles := valid; duplicates := []; invalid := [] |}.
Proof.
  cbv zeta. rewrite (validateFiles_seen files options). cbn [validFiles].
  set (valid := accepted options (existing_signatures options) files).
  assert (Forall (fun f => passes_checks options f = true) valid) as Hp.
  { apply Forall_forall. intros f Hin. by apply accepted_fresh in Hin as [? _]. }
  rewrite validateFiles_seen.
  destruct (accepted_all_new options valid (existing_signatures options))
    as [-> ->]; [done | apply accepted_NoDup | |].
  { intros f Hin. by apply accepted_fresh in Hin as [_ ?]. }
  f_equal. clear -Hp. induction Hp as [|f l Hf _ IH]; [done|].
  cbn [omap list_omap]. unfold passes_checks in Hf.
  apply bool_decide_eq_true in Hf. rewrite Hf. exact IH.
Qed.

(** ** Duplicate groups and valid files *)

Lemma group_lookup_None (files : list File) (sig : string) :
  findDuplicatesInArray files !! sig = None
  ↔ (length (filter (fun f => createFileSignature f = sig) files) < 2)%nat.
Proof.
  unfold findDuplicatesInArray.
  rewrite map_lookup_filter_None, group_by_signature_lookup. cbn [snd].
  destruct (filter _ files) as [|f l]; cbn [length].
  - split; [lia | by left].
  - split.
    + intros [?|H]; [done|]. specialize (H (f :: l) eq_refl). cbn in H. lia.
    + intros Hlen. right. intros x [= <-]. cbn. lia.
Qed.

Lemma filter_signature_nil (files : list File) (sig : string) :
  sig ∉ createFileSignature <$> files ↔
  filter (fun f => createFileSignature f = sig) files = [].
Proof.
  induction files as [|f files IH].
  { split; [done|]. intros _. apply not_elem_of_nil. }
  rewrite fmap_cons, not_elem_of_cons, IH.
  destruct (decide (createFileSignature f = sig)) as [Heq|Hne].
  - rewrite filter_cons_True by done. split; [|done]. intros [Hne _]. done.
  - rewrite filter_cons_False by done. split; [by intros [_ ?]|]. intros ?.
    split; [congruence | done].
Qed.

(** Signatures are pairwise different exactly when no signature has two
    files. *)
Lemma NoDup_signatures_filter (files : list File) :
  NoDup (createFileSignature <$> files)
  ↔ ∀ sig,
      (length (filter (fun f => createFileSignature f = sig) files) < 2)%nat.
Proof.
  induction files as [|f files IH]; [split; [cbn; lia | constructor]|].
  rewrite fmap_cons, NoDup_cons, IH. split.
  - intros [Hfresh Hall] sig.
    destruct (decide (createFileSignature f = sig)) as [<-|Hne].
    + rewrite filter_cons_True by done. cbn [length].
      apply filter_signature_nil in Hfresh. rewrite Hfresh. cbn. lia.
    + rewrite filter_cons_False by done. apply Hall.
  - intros Hall. split.
    + apply filter_signature_nil.
      specialize (Hall (createFileSignature f)).
      rewrite filter_cons_True in Hall by done. cbn [length] in Hall.
      destruct (filter _ files); [done | cbn in Hall; lia].
    + intros sig. specialize (Hall sig).
      destruct (decide (createFileSignature f = sig)).
      * rewrite filter_cons_True in Hall by done. cbn [length] in Hall. lia.
      * by rewrite filter_cons_False in Hall.
Qed.

(** X8.  [findDuplicatesInArray] returns the empty map exactly when the
    signatures of the files are pairwise different; so it finds nothing
    among the valid files of a validation. *)
Theorem findDuplicatesInArray_empty (files : list File)
    (options : FileValidationOptions) :
  (findDuplicatesInArray files = ∅ ↔ NoDup (createFileSignature <$> files))
  ∧ findDuplicatesInArray (validFiles (validateFiles files options)) = ∅.
Proof.
  assert (∀ l, findDuplicatesInArray l = ∅
               ↔ NoDup (createFileSignature <$> l)) as Hiff.
  { intros l. rewrite NoDup_signatures_filter, map_empty.
    split; intros H sig; by apply group_lookup_None. }
  split; [apply Hiff|]. apply Hiff.
  rewrite validateFiles_seen. apply accepted_NoDup.
Qed.

(** ** Extensions, media kinds and hexadecimal digests *)

(** The text splits at the last occurrence of a character it has. *)
Lemma split_last_occurrence c (s : string) :
  occurs c s = true →
  ∃ stem ext, s = stem +:+ String c ext ∧ occurs c ext = false.
Proof.
  induction s as [|d s IH]; [discriminate|]. cbn [occurs]. intros H.
  destruct (occurs c s) eqn:Hs.
  - destruct (IH eq_refl) as (stem & ext & -> & Hext).
    exists (String d stem), ext. by rewrite string_app_cons.
  - rewrite orb_false_r in H. apply Ascii.eqb_eq in H as ->.
    exists "", s. by rewrite string_app_nil_l.
Qed.

Lemma getFileExtension_absent (filename : string) :
  Z.of_nat (String.length filename) < 2 ^ 32 →
  occurs "." filename = false → getFileExtension filename = "".
Proof.
  intros Hlen Hno. unfold getFileExtension, to_uint32.
  rewrite (lastIndexOf_absent _ _ Hno). apply slice_from_past_end.
  change ((-1 - 1) mod 2 ^ 32 + 2) with (2 ^ 32). lia.
Qed.

Lemma getFileExtension_at (stem ext : string) :
  Z.of_nat (String.length (stem +:+ String "." ext)) < 2 ^ 32 →
  occurs "." ext = false →
  getFileExtension (stem +:+ String "." ext)
  = match stem with EmptyString => "" | String _ _ => ext end.
Proof.
  intros Hlen Hext. unfold getFileExtension, to_uint32.
  rewrite (lastIndexOf_last "." stem ext Hext).
  destruct stem as [|d stem].
  - apply slice_from_past_end.
    change ((Z.of_nat (String.length "") - 1) mod 2 ^ 32 + 2) with (2 ^ 32 + 1).
    lia.
  - rewrite length_string_app in Hlen. cbn [String.length] in Hlen.
    rewrite Z.mod_small by (cbn [String.length]; lia).
    unfold slice_from.
    destruct (_ <? 0) eqn:Hneg;
      [apply Z.ltb_lt in Hneg; cbn [String.length] in Hneg; lia|].
    rewrite length_string_app. cbn [String.length].
    rewrite Z.min_l by lia.
    replace (Z.to_nat (Z.of_nat (S (String.length stem)) - 1 + 2))
      with (String.length (String d stem +:+ ".")).
    2:{ rewrite length_string_app. cbn [String.length]. lia. }
    change (String "." ext) with ("." +:+ ext).
    rewrite <- string_app_assoc. apply string_drop_app.
Qed.

(** X9.  The extension of a file name (of fewer than 2^32 characters) has no
    ['.'], and the name ends with it; so the extension of an extension is
    empty. *)
Theorem getFileExtension_suffix (filename : string) :
  Z.of_nat (String.length filename) < 2 ^ 32 →
  occurs "." (getFileExtension filename) = false
  ∧ (∃ stem, filename = stem +:+ getFileExtension filename)
  ∧ getFileExtension (getFileExtension filename) = "".
Proof.
  intros Hlen.
  assert (occurs "." (getFileExtension filename) = false
          ∧ ∃ stem, filename = stem +:+ getFileExtension filename) as [Hno Hsuf].
  { destruct (occurs "." filename) eqn:Hdot.
    - destruct (split_last_occurrence _ _ Hdot) as (stem & ext & -> & Hext).
      rewrite getFileExtension_at by done. destruct stem as [|d stem].
      + split; [done|]. exists (String "." ext). clear.
        induction (String "." ext) as [|c s IH]; [done|].
        by rewrite string_app_cons, <- IH.
      + split; [done|]. exists (String d stem +:+ ".").
        by rewrite string_app_assoc.
    - rewrite getFileExtension_absent by done. split; [done|].
      exists filename. clear. induction filename as [|c s IH]; [done|].
      by rewrite string_app_cons, <- IH. }
  split; [done|]. split; [done|].
  apply getFileExtension_absent; [|done].
  destruct Hsuf as [stem Hstem]. rewrite Hstem, length_string_app in Hlen. lia.
Qed.

Lemma getFileExtension_suffix_witness :
  occurs "." (getFileExtension "archive.tar.gz") = false
  ∧ (∃ stem, "archive.tar.gz" = stem +:+ getFileExtension "archive.tar.gz")
  ∧ getFileExtension (getFileExtension "archive.tar.gz") = "".
Proof. apply (getFileExtension_suffix "archive.tar.gz"). by vm_compute. Defined.

Lemma startsWith_app (s p : string) :
  startsWith s p = true ↔ ∃ rest, s = p +:+ rest.
Proof.
  unfold startsWith. revert s. induction p as [|c p IH]; intros s.
  - split; [|intros _; by destruct s]. intros _. exists s. reflexivity.
  - destruct s as [|d s]; cbn [String.prefix].
    + split; [discriminate|]. intros [rest H]. discriminate H.
    + destruct (ascii_dec c d) as [->|Hne].
      * rewrite IH. split; intros [rest H]; exists rest.
        -- by rewrite string_app_cons, H.
        -- rewrite string_app_cons in H. by injection H.
      * split; [discriminate|]. intros [rest H].
        rewrite string_app_cons in H. injection H as H _. by destruct Hne.
Qed.

(** X10.  A file cannot be both an image and a video.  An image file passes the
    type check of the validator under the default types.  A video file
    does not: within the size limit, [validateFiles] rejects it for its
    type. *)
Theorem media_kind_and_type_check (file : File) :
  (isImageFile file = true → isVideoFile file = false)
  ∧ (isImageFile file = true → type_allowed file no_options)
  ∧ (isVideoFile file = true → within_size_limit file no_options →
     validateFiles [file] no_options = only_invalid file typeReason).
Proof.
  unfold isImageFile, isVideoFile. split; [|split].
  - intros Himg. apply startsWith_app in Himg as [rest ->]. reflexivity.
  - intros Himg. apply startsWith_app in Himg as [rest Htype].
    exists "image/png". split; [apply list_elem_of_here|]. left.
    rewrite Htype. reflexivity.
  - intros Hvid Hsize. apply startsWith_app in Hvid as [rest Htype].
    rewrite validateFiles_single, size_check_passes by done.
    assert (existsb (type_matches file)
              (default default_allowedTypes (allowedTypes no_options)) = false)
      as ->; [|done].
    cbn. unfold type_matches. rewrite Htype. cbn.
    rewrite !bool_decide_eq_false_2; done.
Qed.

Lemma media_kind_and_type_check_witness :
  validateFiles [File.mk "clip.mp4" 1024 "video/mp4" 1700000003000] no_options
  = only_invalid (File.mk "clip.mp4" 1024 "video/mp4" 1700000003000) typeReason.
Proof.
  apply (media_kind_and_type_check
           (File.mk "clip.mp4" 1024 "video/mp4" 1700000003000));
    [reflexivity | by vm_compute].
Defined.

(** The two digits of a byte: no ['|'] among them, and they read back as
    the byte. *)
Lemma byte_hex_digits (b : Byte.byte) :
  ∃ c1 c2,
    padStart2 (toString16 (Byte.to_N b)) = String c1 (String c2 EmptyString)
    ∧ Byte.of_N (16 * hex_value c1 + hex_value c2) = Some b
    ∧ Ascii.eqb c1 "|" = false ∧ Ascii.eqb c2 "|" = false.
Proof. destruct b; do 2 eexists; repeat split; reflexivity. Qed.

Lemma hex_of_bytes_cons b (l : list Byte.byte) :
  hex_of_bytes (b :: l)
  = padStart2 (toString16 (Byte.to_N b)) +:+ hex_of_bytes l.
Proof. reflexivity. Qed.

Lemma bytes_of_hex_of_bytes (hashArray : list Byte.byte) :
  bytes_of_hex (hex_of_bytes hashArray) = Some hashArray.
Proof.
  induction hashArray as [|b l IH]; [done|].
  rewrite hex_of_bytes_cons.
  destruct (byte_hex_digits b) as (c1 & c2 & -> & Hb & _).
  rewrite !string_app_cons, string_app_nil_l. cbn [bytes_of_hex].
  by rewrite Hb, IH.
Qed.

Lemma hex_of_bytes_no_bar (hashArray : list Byte.byte) :
  occurs "|" (hex_of_bytes hashArray) = false.
Proof.
  induction hashArray as [|b l IH]; [done|].
  rewrite hex_of_bytes_cons.
  destruct (byte_hex_digits b) as (c1 & c2 & -> & _ & H1 & H2).
  rewrite !string_app_cons, string_app_nil_l. cbn [occurs].
  by rewrite H1, H2, IH.
Qed.

Lemma hex_of_bytes_length (hashArray : list Byte.byte) :
  String.length (hex_of_bytes hashArray) = (2 * length hashArray)%nat.
Proof.
  induction hashArray as [|b l IH]; [done|].
  rewrite hex_of_bytes_cons.
  destruct (byte_hex_digits b) as (c1 & c2 & -> & _).
  rewrite !string_app_cons, string_app_nil_l. cbn [String.length length].
  rewrite IH. lia.
Qed.

Lemma createFileSignature_has_bar (file : File) :
  occurs "|" (createFileSignature file) = true.
Proof.
  unfold createFileSignature. rewrite occurs_app.
  apply orb_true_iff. right. reflexivity.
Qed.

(** X11.  When the bytes are read and digested, [generateFileHash] returns the
    digest in hexadecimal: two characters per byte, from which the digest
    can be read back, so that different digests give different texts; and
    the text is the signature of no file, so a content hash is never taken
    for the identity of a file whose hashing failed. *)
Theorem generateFileHash_digest
    (arrayBuffer : File → Completion (list Byte.byte))
    (digest_SHA256 : list Byte.byte → Completion (list Byte.byte))
    (file : File) (buffer hashBuffer : list Byte.byte) :
  arrayBuffer file = Normal buffer →
  digest_SHA256 buffer = Normal hashBuffer →
  ∃ hash,
    generateFileHash arrayBuffer digest_SHA256 file = Normal hash
    ∧ String.length hash = (2 * length hashBuffer)%nat
    ∧ bytes_of_hex hash = Some hashBuffer
    ∧ ∀ other : File, hash ≠ createFileSignature other.
Proof.
  intros Hread Hdigest. exists (hex_of_bytes hashBuffer).
  split; [|split; [|split]].
  - unfold generateFileHash, hash_attempt. rewrite Hread. cbn.
    by rewrite Hdigest.
  - apply hex_of_bytes_length.
  - apply bytes_of_hex_of_bytes.
  - intros other Heq.
    pose proof (hex_of_bytes_no_bar hashBuffer) as Hno.
    rewrite Heq, createFileSignature_has_bar in Hno. discriminate Hno.
Qed.

Lemma generateFileHash_digest_witness :
  ∃ hash,
    generateFileHash (fun _ => Normal [Byte.x89; Byte.x50])
      (fun _ => Normal [Byte.x0a; Byte.xff; Byte.x00]) photo_png = Normal hash
    ∧ String.length hash = 6%nat
    ∧ bytes_of_hex hash = Some [Byte.x0a; Byte.xff; Byte.x00]
    ∧ ∀ other : File, hash ≠ createFileSignature other.
Proof.
  apply (generateFileHash_digest _ _ photo_png [Byte.x89; Byte.x50]
           [Byte.x0a; Byte.xff; Byte.x00]); reflexivity.
Defined.

(** ** The collection: capacity, pending files, the guard *)

(** When [handleFileSelect] reaches [onChange], the entries it appends are
    those of the valid files of the slice. *)
Lemma handleFileSelect_onChange_exact maxImages maxSize uuid objectURL
    (images : list MediaItem) files combined :
  onChange (handleFileSelect maxImages maxSize uuid objectURL false images
              (Some files)) = Some combined →
  let valid :=
    validFiles
      (validateFiles (slice_to (maxImages - Z.of_nat (length images)) files)
         (validation_options maxSize images)) in
  valid ≠ [] ∧ combined = images ++ imap (new_image uuid objectURL images) valid.
Proof.
  unfold handleFileSelect. destruct files as [|file files]; [discriminate|].
  destruct (length (slice_to _ _) =? 0)%nat; [discriminate|].
  destruct (length (validFiles _) =? 0)%nat eqn:Hlen; [discriminate|].
  cbn. intros [= <-]. split; [|reflexivity].
  intros Hnil. rewrite Hnil in Hlen. discriminate.
Qed.

Lemma slice_to_length {A} (k : Z) (arr : list A) :
  0 <= k → Z.of_nat (length (slice_to k arr)) <= k.
Proof.
  intros Hk. rewrite slice_to_take by done. rewrite length_take. lia.
Qed.

Lemma removeImage_length imageId (images : list MediaItem) :
  (length (removeImage imageId images) <= length images)%nat.
Proof.
  unfold removeImage.
  pose proof (length_filter (fun img => MediaItem.id img ≠ imageId) images).
  destruct (_ && _); [|done]. by rewrite length_alter.
Qed.

Lemma apply_op_capacity maxImages maxSize (images : list MediaItem) op :
  Z.of_nat (length images) <= maxImages →
  Z.of_nat (length (apply_op maxImages maxSize images op)) <= maxImages.
Proof.
  intros Hcap. destruct op as [files uuid objectURL|imageId|imageId];
    cbn [apply_op].
  - destruct (onChange _) as [combined|] eqn:Hchange; [|done].
    apply handleFileSelect_onChange_exact in Hchange as [_ ->].
    cbn [default from_option]. unfold id.
    rewrite length_app, length_imap.
    pose proof (slice_to_length (maxImages - Z.of_nat (length images)) files
                  ltac:(lia)).
    pose proof (sublist_length _ _
                  (accepted_sublist (validation_options maxSize images)
                     (slice_to (maxImages - Z.of_nat (length images)) files)
                     (existing_signatures (validation_options maxSize images))))
      as Hsub.
    rewrite validateFiles_seen. cbn [validFiles]. lia.
  - pose proof (removeImage_length imageId images). lia.
  - unfold setFeaturedImage. by rewrite length_fmap.
Qed.

(** X12.  The collection never grows past [maxImages]: from a collection of at
    most [maxImages] entries, every sequence of operations ends in one of
    at most [maxImages] entries. *)
Theorem run_capacity (maxImages maxSize : Z) (ops : list Op)
    (images : list MediaItem) :
  Z.of_nat (length images) <= maxImages →
  Z.of_nat (length (run maxImages maxSize images ops)) <= maxImages.
Proof.
  revert images. induction ops as [|op ops IH]; intros images Hcap; [done|].
  apply IH. by apply apply_op_capacity.
Qed.

Lemma run_capacity_witness :
  Z.of_nat
    (length (run 2 5 [stored "a" true]
               [AddFiles [photo_png; logo_png; banner_webp] uuid_n blob_n]))
  <= 2.
Proof.
  apply (run_capacity 2 5
           [AddFiles [photo_png; logo_png; banner_webp] uuid_n blob_n]
           [stored "a" true]).
  by vm_compute.
Defined.

Lemma pending_files_imap (m : nat → File → MediaItem) (valid : list File) :
  (∀ i f, MediaItem.file (m i f) = Some f) →
  pending_files (imap m valid) = valid.
Proof.
  unfold pending_files. revert m.
  induction valid as [|f valid IH]; intros m Hm; [done|].
  rewrite imap_cons. cbn [omap list_omap]. rewrite Hm.
  f_equal. apply IH. intros i g. apply Hm.
Qed.

Lemma pending_files_app (l1 l2 : list MediaItem) :
  pending_files (l1 ++ l2) = pending_files l1 ++ pending_files l2.
Proof. apply omap_app. Qed.

Lemma pending_files_setFeaturedImage imageId (images : list MediaItem) :
  pending_files (setFeaturedImage imageId images) = pending_files images.
Proof.
  unfold pending_files, setFeaturedImage.
  induction images as [|img images IH]; [done|].
  rewrite fmap_cons. cbn [omap list_omap MediaItem.with_isFeatured
    MediaItem.file]. by rewrite IH.
Qed.

Lemma pending_files_removeImage imageId (images : list MediaItem) :
  pending_files (removeImage imageId images) `sublist_of` pending_files images.
Proof.
  unfold removeImage.
  assert (pending_files (filter (fun img => MediaItem.id img ≠ imageId) images)
          `sublist_of` pending_files images) as Hsub.
  { unfold pending_files. induction images as [|img images IH]; [done|].
    destruct (decide (MediaItem.id img ≠ imageId)).
    - rewrite filter_cons_True by done. cbn [omap list_omap].
      destruct (MediaItem.file img); [by apply sublist_skip | done].
    - rewrite filter_cons_False by done. cbn [omap list_omap].
      destruct (MediaItem.file img); [by apply sublist_cons | done]. }
  destruct (_ && _); [|done].
  destruct (filter _ images) as [|first rest]; [done|]. exact Hsub.
Qed.

Lemma apply_op_pending maxImages maxSize (images : list MediaItem) op :
  NoDup (createFileSignature <$> pending_files images) →
  NoDup (createFileSignature
           <$> pending_files (apply_op maxImages maxSize images op)).
Proof.
  intros Hnd. destruct op as [files uuid objectURL|imageId|imageId];
    cbn [apply_op].
  - destruct (onChange _) as [combined|] eqn:Hchange; [|done].
    apply handleFileSelect_onChange_exact in Hchange as [_ ->].
    cbn [default from_option]. unfold id.
    rewrite pending_files_app, pending_files_imap by done.
    rewrite validateFiles_seen. cbn [validFiles].
    rewrite fmap_app. apply NoDup_app. split; [done|]. split.
    + intros sig Hold Hnew.
      apply list_elem_of_fmap in Hnew as (file & -> & Hfile).
      apply accepted_fresh in Hfile as [_ Hfresh]. apply Hfresh.
      unfold existing_signatures, validation_options.
      cbn [existingFiles default from_option]. unfold id.
      by apply elem_of_list_to_set.
    + apply accepted_NoDup.
  - eapply sublist_NoDup; [exact Hnd|].
    apply fmap_sublist, pending_files_removeImage.
  - by rewrite pending_files_setFeaturedImage.
Qed.

(** X13.  The collection never holds two pending files with the same signature:
    when the signatures of the pending files are pairwise different, they
    still are after every sequence of operations. *)
Theorem run_pending_signatures (maxImages maxSize : Z) (ops : list Op)
    (images : list MediaItem) :
  NoDup (createFileSignature <$> pending_files images) →
  NoDup (createFileSignature
           <$> pending_files (run maxImages maxSize images ops)).
Proof.
  revert images. induction ops as [|op ops IH]; intros images Hnd; [done|].
  apply IH. by apply apply_op_pending.
Qed.

Lemma run_pending_signatures_witness :
  NoDup (createFileSignature <$> pending_files (run 10 5 [] session)).
Proof.
  apply (run_pending_signatures 10 5 session []). constructor.
Defined.

(** X14.  The guard of [handleFileSelect] and of [handleDrop].  The value of the
    ref is the same after a call as before it, whatever the call did.  A
    call made while the ref is set, or a drop made while the state says
    that a call is in progress, does not call the validator and does not
    call [onChange]. *)
Theorem processing_guard (maxImages maxSize : Z)
    (uuid objectURL : nat → string) (isProcessing processing : bool)
    (images : list MediaItem) (files : option (list File)) :
  let select :=
    handleFileSelect maxImages maxSize uuid objectURL processing images files in
  let drop :=
    handleDrop maxImages maxSize uuid objectURL isProcessing processing
      images files in
  processingQueue select = processing
  ∧ processingQueue drop = processing
  ∧ (processing = true →
     validator_calls (events select) = [] ∧ onChange select = None)
  ∧ (isProcessing = true ∨ processing = true →
     validator_calls (events drop) = [] ∧ onChange drop = None).
Proof.
  cbv zeta.
  assert (processingQueue
            (handleFileSelect maxImages maxSize uuid objectURL processing
               images files) = processing) as Hflag.
  { unfold handleFileSelect. destruct files as [[|f files]|]; [done| |done].
    destruct processing; [done|].
    destruct (length _ =? 0)%nat; [done|].
    by destruct (length _ =? 0)%nat. }
  assert (processing = true →
          validator_calls
            (events (handleFileSelect maxImages maxSize uuid objectURL
                       processing images files)) = []
          ∧ onChange (handleFileSelect maxImages maxSize uuid objectURL
                        processing images files) = None) as Hbusy.
  { intros ->. unfold handleFileSelect. by destruct files as [[|f files]|]. }
  split; [done|]. split; [|split; [done|]].
  - unfold handleDrop. by destruct isProcessing.
  - unfold handleDrop. intros [->|Hp]; [done|].
    destruct isProcessing; [done | by apply Hbusy].
Qed.

Lemma processing_guard_witness :
  validator_calls
    (events (handleFileSelect 10 5 uuid_n blob_n true [] (Some [photo_png])))
  = []
  ∧ onChange (handleFileSelect 10 5 uuid_n blob_n true [] (Some [photo_png]))
    = None.
Proof.
  destruct (processing_guard 10 5 uuid_n blob_n false true []
              (Some [photo_png])) as (_ & _ & Hbusy & _).
  exact (Hbusy eq_refl).
Defined.

(** ** How removing and featuring compose *)

Lemma removeImage_no_id imageId (images : list MediaItem) :
  Forall (fun img => MediaItem.id img ≠ imageId) (removeImage imageId images).
Proof.
  unfold removeImage.
  assert (Forall (fun img => MediaItem.id img ≠ imageId)
            (filter (fun img => MediaItem.id img ≠ imageId) images)) as Hall.
  { apply Forall_forall. intros img Hin. by apply list_elem_of_filter in Hin as [? _]. }
  destruct (_ && _); [|done].
  destruct (filter _ images) as [|first rest]; [done|].
  apply Forall_cons in Hall as [Hfirst Hrest]. by apply Forall_cons.
Qed.

(** X15.  [removeImage] leaves no entry with the id, whatever the collection;
    with an id that no entry has it changes nothing; so removing the same
    id a second time changes nothing. *)
Theorem removeImage_idempotent (imageId : string) (images : list MediaItem) :
  Forall (fun img => MediaItem.id img ≠ imageId) (removeImage imageId images)
  ∧ (imageId ∉ MediaItem.id <$> images → removeImage imageId images = images)
  ∧ removeImage imageId (removeImage imageId images)
    = removeImage imageId images.
Proof.
  split; [apply removeImage_no_id|]. split.
  - intros Hno. by apply removeImage_absent, not_in_ids.
  - apply removeImage_absent, removeImage_no_id.
Qed.

Lemma removeImage_idempotent_witness :
  removeImage "z" [stored "a" true; stored "b" false]
  = [stored "a" true; stored "b" false].
Proof.
  destruct (removeImage_idempotent "z" [stored "a" true; stored "b" false])
    as (_ & Habsent & _).
  apply Habsent. cbn. intros Hin.
  repeat (apply elem_of_cons in Hin as [Hin|Hin]; [discriminate Hin|]).
  by apply not_elem_of_nil in Hin.
Defined.

Lemma setFeaturedImage_twice a b (images : list MediaItem) :
  setFeaturedImage a (setFeaturedImage b images) = setFeaturedImage a images.
Proof.
  unfold setFeaturedImage. rewrite <- list_fmap_compose.
  by apply list_fmap_ext.
Qed.

Lemma setFeaturedImage_filter a b (images : list MediaItem) :
  filter (fun img => MediaItem.id img ≠ a) (setFeaturedImage b images)
  = setFeaturedImage b (filter (fun img => MediaItem.id img ≠ a) images).
Proof.
  unfold setFeaturedImage. induction images as [|img images IH]; [done|].
  rewrite fmap_cons. destruct (decide (MediaItem.id img ≠ a)).
  - rewrite !filter_cons_True by done. by rewrite fmap_cons, IH.
  - rewrite !filter_cons_False by done. exact IH.
Qed.

Lemma setFeaturedImage_find a b (images : list MediaItem) :
  a ≠ b →
  from_option MediaItem.isFeatured false
    (List.find (fun img => bool_decide (MediaItem.id img = a))
       (setFeaturedImage b images)) = false.
Proof.
  intros Hne. unfold setFeaturedImage.
  induction images as [|img images IH]; [done|].
  rewrite fmap_cons. cbn [List.find MediaItem.with_isFeatured MediaItem.id].
  destruct (bool_decide (MediaItem.id img = a)) eqn:Hid; [|exact IH].
  apply bool_decide_eq_true in Hid. cbn. apply bool_decide_eq_false.
  congruence.
Qed.

Lemma setFeaturedImage_alter b (images : list MediaItem) :
  setFeaturedImage b (alter (MediaItem.with_isFeatured true) 0%nat images)
  = setFeaturedImage b images.
Proof. by destruct images. Qed.

(** X16.  The last choice of a featured image wins, and choosing the featured
    image commutes with removing an entry of another id. *)
Theorem setFeaturedImage_composes (a b : string) (images : list MediaItem) :
  setFeaturedImage a (setFeaturedImage b images) = setFeaturedImage a images
  ∧ (a ≠ b →
     removeImage a (setFeaturedImage b images)
     = setFeaturedImage b (removeImage a images)).
Proof.
  split; [apply setFeaturedImage_twice|]. intros Hne.
  unfold removeImage at 1. rewrite setFeaturedImage_find by done.
  cbn [andb]. rewrite setFeaturedImage_filter.
  unfold removeImage. destruct (_ && _); [|done].
  by rewrite setFeaturedImage_alter.
Qed.

Lemma setFeaturedImage_composes_witness :
  removeImage "a" (setFeaturedImage "b" [stored "a" true; stored "b" false])
  = setFeaturedImage "b" (removeImage "a" [stored "a" true; stored "b" false]).
Proof.
  destruct (setFeaturedImage_composes "a" "b"
              [stored "a" true; stored "b" false]) as [_ Hcommute].
  apply Hcommute. discriminate.
Defined.

(** ** Recropping *)

Lemma recrop_entries_spec targetId cropped objectURL (images : list MediaItem) :
  ∀ calls,
    let updated := recrop_entries targetId cropped objectURL calls images in
    MediaItem.id <$> updated = MediaItem.id <$> images
    ∧ MediaItem.isFeatured <$> updated = MediaItem.isFeatured <$> images
    ∧ featured_count updated = featured_count images
    ∧ ∀ i img,
        images !! i = Some img →
        (MediaItem.id img ≠ targetId → updated !! i = Some img)
        ∧ (MediaItem.id img = targetId →
           ∃ url, updated !! i
                  = Some {| MediaItem.id := MediaItem.id img;
                            MediaItem.url := url;
                            MediaItem.file := Some cropped;
                            MediaItem.isFeatured := MediaItem.isFeatured img;
                            MediaItem.mediaType := MediaItem.mediaType img |}).
Proof.
  induction images as [|img images IH]; intros calls; cbv zeta.
  { do 3 (split; [done|]). intros i img Hi. by rewrite lookup_nil in Hi. }
  cbn [recrop_entries].
  destruct (bool_decide (MediaItem.id img = targetId)) eqn:Hid.
  - apply bool_decide_eq_true in Hid.
    destruct (IH (S calls)) as (Hids & Hflags & Hcount & Hrest).
    rewrite !fmap_cons, !featured_count_cons. cbn [MediaItem.id
      MediaItem.isFeatured]. rewrite Hids, Hflags, Hcount.
    do 3 (split; [done|]). intros i img' Hi.
    destruct i as [|i]; [|by apply Hrest].
    cbn in Hi. injection Hi as <-. split; [done|]. intros _. by eexists.
  - apply bool_decide_eq_false in Hid.
    destruct (IH calls) as (Hids & Hflags & Hcount & Hrest).
    rewrite !fmap_cons, !featured_count_cons. rewrite Hids, Hflags, Hcount.
    do 3 (split; [done|]). intros i img' Hi.
    destruct i as [|i]; [|by apply Hrest].
    cbn in Hi. injection Hi as <-. split; [done|]. intros Heq. done.
Qed.

(** X17.  A recrop keeps the collection in shape: [onChange] gets a collection
    with the same ids and the same featured flags in the same order, so
    the featured invariant holds after it exactly when it held before;
    every entry of another id is untouched, and an entry with the id of
    the recropped image keeps its id and flag and gets the cropped file,
    named [recropped-<uuid>.jpg] and of type [image/jpeg].  Without an
    image to recrop, [onChange] is not called. *)
Theorem handleCropComplete_preserves (uuid : string) (now : Z)
    (objectURL : nat → string) (target : MediaItem) (showCropper : bool)
    (images : list MediaItem) (blobSize : Z) :
  crop_onChange
    (handleCropComplete uuid now objectURL None showCropper images blobSize)
  = None
  ∧ ∃ updated,
      crop_onChange
        (handleCropComplete uuid now objectURL (Some target) showCropper
           images blobSize) = Some updated
      ∧ MediaItem.id <$> updated = MediaItem.id <$> images
      ∧ MediaItem.isFeatured <$> updated = MediaItem.isFeatured <$> images
      ∧ (featured_invariant updated ↔ featured_invariant images)
      ∧ ∀ i img,
          images !! i = Some img →
          if decide (MediaItem.id img = MediaItem.id target)
          then ∃ img',
                 updated !! i = Some img'
                 ∧ MediaItem.id img' = MediaItem.id img
                 ∧ MediaItem.isFeatured img' = MediaItem.isFeatured img
                 ∧ MediaItem.file img'
                   = Some (File.mk ("recropped-" +:+ uuid +:+ ".jpg")
                             blobSize "image/jpeg" now)
          else updated !! i = Some img.
Proof.
  split; [done|]. eexists. split; [reflexivity|].
  destruct (recrop_entries_spec (MediaItem.id target)
              (croppedFile uuid blobSize now) objectURL images 0)
    as (Hids & Hflags & Hcount & Hrest).
  split; [done|]. split; [done|]. split.
  - unfold featured_invariant. rewrite Hcount.
    assert (recrop_entries (MediaItem.id target)
              (croppedFile uuid blobSize now) objectURL 0 images = []
            ↔ images = []) as Hnil.
    { split; intros H.
      - apply (f_equal (fmap MediaItem.id)) in H. rewrite Hids in H.
        by destruct images.
      - by rewrite H. }
    destruct (decide (images = [])) as [Himg|Himg].
    + rewrite decide_True by by apply Hnil. done.
    + rewrite decide_False; [done|]. intros H. by apply Himg, Hnil.
  - intros i img Hi. destruct (Hrest i img Hi) as [Hother Hsame].
    destruct (decide _) as [Heq|Hne]; [|by apply Hother].
    destruct (Hsame Heq) as [url ->]. by eexists.
Qed.

(** ** The cache of object URLs *)

(** X18.  [createSafeObjectURL] creates at most one URL per id: after a call for
    an id the cache holds the URL returned, and a further call for that
    id, for the same file or another, returns the same URL and leaves the
    store as it is. *)
Theorem createSafeObjectURL_once (objectURL : nat → string)
    (file1 file2 : File) (fileId : string) (st : Cached.Store) :
  let first := Cached.createSafeObjectURL objectURL file1 fileId st in
  Cached.urlCache first.2 !! fileId = Some first.1
  ∧ Cached.createSafeObjectURL objectURL file2 fileId first.2 = first
  ∧ Cached.revoked first.2 = Cached.revoked st.
Proof.
  cbv zeta.
  destruct (Cached.createSafeObjectURL objectURL file1 fileId st)
    as [url1 st1] eqn:Hfirst.
  unfold Cached.createSafeObjectURL in *. cbn [fst snd].
  destruct (Cached.urlCache st !! fileId) as [url|] eqn:Hcache;
    injection Hfirst as <- <-.
  - rewrite Hcache. done.
  - cbn [Cached.urlCache Cached.revoked]. rewrite lookup_insert_eq. done.
Qed.

(** X19.  Removing an image whose id has a cached URL revokes that URL once and
    forgets the id, so that a later URL for the id is a new one; the other
    ids of the cache keep their URLs.  Removing an image whose id has no
    cached URL leaves the store as it is. *)
Theorem cached_removeImage_releases (imageId : string)
    (images : list Cached.Item) (st : Cached.Store) :
  let st' := (Cached.removeImage imageId images st).2 in
  (Cached.urlCache st !! imageId = None → st' = st)
  ∧ (∀ url,
        Cached.urlCache st !! imageId = Some url → url ≠ "" →
        Cached.urlCache st' !! imageId = None
        ∧ Cached.revoked st' = Cached.revoked st ++ [url]
        ∧ Cached.objects st' = Cached.objects st
        ∧ ∀ other, other ≠ imageId →
                   Cached.urlCache st' !! other = Cached.urlCache st !! other).
Proof.
  cbv zeta. unfold Cached.removeImage. cbn [snd]. split.
  - by intros ->.
  - intros url -> Htruthy. destruct url as [|c rest]; [done|].
    cbn [Cached.urlCache Cached.revoked Cached.objects
      Cached.revoke_if_truthy].
    rewrite lookup_delete_eq. repeat split; [done..|].
    intros other Hne. by rewrite lookup_delete_ne.
Qed.

Lemma cached_removeImage_releases_witness :
  Cached.revoked
    (Cached.removeImage "new-1" []
       {| Cached.urlCache := {["new-1" := "blob:1"]};
          Cached.revoked := [];
          Cached.objects := [("blob:1", photo_png)] |}).2
  = ["blob:1"].
Proof.
  destruct (cached_removeImage_releases "new-1" []
              {| Cached.urlCache := {["new-1" := "blob:1"]};
                 Cached.revoked := [];
                 Cached.objects := [("blob:1", photo_png)] |})
    as [_ Hcached].
  destruct (Hcached "blob:1") as (_ & Hrev & _);
    [by vm_compute | discriminate | exact Hrev].
Defined.

(** A recrop only adds to the URLs revoked. *)
Lemma cached_recrop_revoked_mono objectURL targetId cropped (x : string)
    (images : list Cached.Item) :
  ∀ st : Cached.Store,
    x ∈ Cached.revoked st →
    x ∈ Cached.revoked
          (Cached.recrop_entries objectURL targetId cropped images st).2.
Proof.
  induction images as [|img images IH]; intros st Hin; [done|].
  cbn [Cached.recrop_entries].
  destruct (bool_decide (Cached.id img = targetId)).
  - destruct (Cached.createSafeObjectURL objectURL cropped (Cached.id img)
                (Cached.revoke_cached (Cached.id img) st))
      as [newUrl st1] eqn:Hcreate.
    assert (x ∈ Cached.revoked st1) as Hin1.
    { unfold Cached.createSafeObjectURL, Cached.revoke_cached in Hcreate.
      destruct (Cached.urlCache st !! Cached.id img) as [u|] eqn:Hu.
      - cbn [Cached.urlCache] in Hcreate. rewrite Hu in Hcreate.
        injection Hcreate as _ <-. cbn [Cached.revoked].
        destruct u; cbn; [done|]. apply elem_of_app. by left.
      - rewrite Hu in Hcreate. injection Hcreate as _ <-. done. }
    specialize (IH st1 Hin1).
    by destruct (Cached.recrop_entries objectURL targetId cropped images st1).
  - specialize (IH st Hin).
    by destruct (Cached.recrop_entries objectURL targetId cropped images st).
Qed.

(** The recrop from a store in which the id of the recropped image has a
    cached URL: the store is not changed by [createSafeObjectURL], and
    each entry with the id gets the cached URL. *)
Lemma cached_recrop_entries_reuse objectURL targetId cropped oldUrl
    (images : list Cached.Item) :
  ∀ st : Cached.Store,
    Cached.urlCache st !! targetId = Some oldUrl →
    let out := Cached.recrop_entries objectURL targetId cropped images st in
    Cached.urlCache out.2 = Cached.urlCache st
    ∧ Cached.objects out.2 = Cached.objects st
    ∧ (∀ i img, images !! i = Some img → Cached.id img = targetId →
                ∃ img', out.1 !! i = Some img'
                        ∧ Cached.url img' = oldUrl
                        ∧ Cached.file img' = Some cropped
                        ∧ Cached.id img' = targetId)
    ∧ (∀ c rest, oldUrl = String c rest →
                 targetId ∈ Cached.id <$> images →
                 oldUrl ∈ Cached.revoked out.2).
Proof.
  induction images as [|img images IH]; intros st Hcache; cbv zeta.
  { cbn. do 2 (split; [done|]). split.
    - intros i img Hi. by rewrite lookup_nil in Hi.
    - intros c rest _ Hin. by apply not_elem_of_nil in Hin. }
  cbn [Cached.recrop_entries].
  destruct (bool_decide (Cached.id img = targetId)) eqn:Hid.
  - apply bool_decide_eq_true in Hid.
    unfold Cached.createSafeObjectURL, Cached.revoke_cached.
    rewrite Hid, Hcache. cbn [Cached.urlCache]. rewrite Hcache.
    set (st1 := {| Cached.urlCache := Cached.urlCache st;
                   Cached.revoked :=
                     Cached.revoke_if_truthy oldUrl (Cached.revoked st);
                   Cached.objects := Cached.objects st |}).
    destruct (IH st1 Hcache) as (Hc & Ho & Hentries & Hrev).
    destruct (Cached.recrop_entries objectURL targetId cropped images st1)
      as [rest' st2] eqn:Hrec.
    cbn [fst snd] in *. do 2 (split; [done|]). split.
    + intros i img' Hi Himg'.
      destruct i as [|i]; [|by apply (Hentries i img')].
      cbn in Hi. injection Hi as <-. eexists. by cbn.
    + intros c rest Htruthy _.
      assert (oldUrl ∈ Cached.revoked st1) as Hin.
      { subst st1. cbn [Cached.revoked]. rewrite Htruthy.
        cbn [Cached.revoke_if_truthy]. apply elem_of_app. right.
        apply list_elem_of_here. }
      pose proof (cached_recrop_revoked_mono objectURL targetId cropped
                    oldUrl images st1 Hin) as Hmono.
      by rewrite Hrec in Hmono.
  - apply bool_decide_eq_false in Hid.
    destruct (IH st Hcache) as (Hc & Ho & Hentries & Hrev).
    destruct (Cached.recrop_entries objectURL targetId cropped images st)
      as [rest' st2] eqn:Hrec.
    cbn [fst snd] in *. do 2 (split; [done|]). split.
    + intros i img' Hi Himg'.
      destruct i as [|i]; [|by apply (Hentries i img')].
      cbn in Hi. injection Hi as <-. done.
    + intros c rest Htruthy Hin. apply (Hrev c rest Htruthy).
      rewrite fmap_cons in Hin. apply elem_of_cons in Hin as [Heq|Hin]; [|done].
      by destruct Hid.
Qed.

(** X20.  In the variant with the cache, recropping an image whose id has a
    cached URL revokes that URL and then takes it from the cache again:
    every entry with the id gets the cropped file together with the old,
    revoked URL, no URL is created for the cropped file, and the cache is
    left as it was. *)
Theorem cached_recrop_reuses_revoked_url (objectURL : nat → string)
    (uuid : string) (now blobSize : Z) (target : Cached.Item)
    (images : list Cached.Item) (st : Cached.Store) (oldUrl : string) :
  Cached.urlCache st !! Cached.id target = Some oldUrl →
  oldUrl ≠ "" →
  Cached.id target ∈ Cached.id <$> images →
  ∃ updated st',
    Cached.handleCropComplete objectURL uuid now (Some target) images
      blobSize st = (Some updated, st')
    ∧ oldUrl ∈ Cached.revoked st'
    ∧ Cached.objects st' = Cached.objects st
    ∧ Cached.urlCache st' = Cached.urlCache st
    ∧ ∀ i img,
        images !! i = Some img → Cached.id img = Cached.id target →
        ∃ img', updated !! i = Some img'
                ∧ Cached.url img' = oldUrl
                ∧ Cached.file img' = Some (croppedFile uuid blobSize now).
Proof.
  intros Hcache Htruthy Hin. unfold Cached.handleCropComplete.
  destruct (cached_recrop_entries_reuse objectURL (Cached.id target)
              (croppedFile uuid blobSize now) oldUrl images st Hcache)
    as (Hc & Ho & Hentries & Hrev).
  destruct (Cached.recrop_entries objectURL (Cached.id target)
              (croppedFile uuid blobSize now) images st)
    as [updated st'] eqn:Hrec.
  cbn [fst snd] in *. exists updated, st'. split; [done|]. split.
  - destruct oldUrl as [|c rest]; [done|]. by apply (Hrev c rest).
  - do 2 (split; [done|]). intros i img Hi Himg.
    destruct (Hentries i img Hi Himg) as (img' & ? & ? & ? & _). by exists img'.
Qed.

Lemma cached_recrop_reuses_revoked_url_witness :
  ∃ updated st',
    Cached.handleCropComplete blob_n "77" 1700000009000 (Some cached_photo)
      [cached_photo] 5000 cached_store = (Some updated, st')
    ∧ "blob:1" ∈ Cached.revoked st'
    ∧ Cached.objects st' = Cached.objects cached_store
    ∧ Cached.urlCache st' = Cached.urlCache cached_store
    ∧ ∀ i img,
        [cached_photo] !! i = Some img → Cached.id img = Cached.id cached_photo →
        ∃ img', updated !! i = Some img'
                ∧ Cached.url img' = "blob:1"
                ∧ Cached.file img' = Some (croppedFile "77" 5000 1700000009000).
Proof.
  apply (cached_recrop_reuses_revoked_url blob_n "77" 1700000009000 5000
           cached_photo [cached_photo] cached_store "blob:1").
  - by vm_compute.
  - discriminate.
  - apply list_elem_of_here.
Defined.

(** ** The edit page: loading and deletions *)

(** X21.  What [fetchProduct] loads has one featured entry when the product has
    a featured image URL and none otherwise; so it satisfies the featured
    invariant exactly when there is such a URL or there are no rows. *)
Theorem load_images_featured (featured_image_url : option string)
    (rows : option (list ImageRow)) :
  let images := load_images featured_image_url rows in
  let has_url :=
    match featured_image_url with Some (String _ _) => true | _ => false end in
  featured_count images = (if has_url then 1%nat else 0%nat)
  ∧ (featured_invariant images
     ↔ has_url = true ∨ default [] rows = []).
Proof.
  cbv zeta.
  assert (∀ l : list ImageRow,
             featured_count
               ((fun img =>
                   {| MediaItem.id := ImageRow.id img;
                      MediaItem.url := ImageRow.url img;
                      MediaItem.file := None;
                      MediaItem.isFeatured := false;
                      MediaItem.mediaType := image |}) <$> l) = 0%nat) as Hrows.
  { intros l. apply featured_count_zero. apply Forall_fmap.
    by apply Forall_true. }
  unfold load_images, featured_invariant.
  destruct featured_image_url as [[|c rest]|]; destruct rows as [[|row rows]|];
    rewrite ?featured_count_app, ?featured_count_cons, ?Hrows;
    cbn; split; try done; try (split; [by right | done]);
    try (split; [by left | done]); try (split; [by intros [= ] | by intros [[= ]|[= ]]]).
Qed.

Lemma set_order_spec (l : list string) :
  ∀ seen,
    NoDup seen →
    let out :=
      fold_left
        (fun seen x => if bool_decide (x ∈ seen) then seen else seen ++ [x])
        l seen in
    NoDup out ∧ ∀ x, x ∈ out ↔ x ∈ seen ∨ x ∈ l.
Proof.
  induction l as [|y l IH]; intros seen Hnd; cbv zeta.
  { cbn. split; [done|]. intros x. split; [by left|].
    intros [?|Hin]; [done|]. by apply not_elem_of_nil in Hin. }
  cbn [fold_left]. destruct (bool_decide (y ∈ seen)) eqn:Hy.
  - apply bool_decide_eq_true in Hy.
    destruct (IH seen Hnd) as [Hnd' Hin']. split; [done|].
    intros x. rewrite Hin', elem_of_cons. split; [tauto|].
    intros [?|[->|?]]; tauto.
  - apply bool_decide_eq_false in Hy.
    destruct (IH (seen ++ [y])) as [Hnd' Hin'].
    { apply NoDup_app. split; [done|]. split; [|apply NoDup_singleton].
      intros x Hx Hxy. apply list_elem_of_singleton in Hxy. by subst. }
    split; [done|]. intros x.
    rewrite Hin', elem_of_app, list_elem_of_singleton, elem_of_cons. tauto.
Qed.

Lemma set_order_NoDup (l : list string) :
  NoDup l → set_order l = l.
Proof.
  unfold set_order.
  assert (∀ seen,
             NoDup (seen ++ l) →
             fold_left
               (fun seen x => if bool_decide (x ∈ seen) then seen else seen ++ [x])
               l seen = seen ++ l) as Hgen.
  { induction l as [|y l IH]; intros seen Hnd; [by rewrite app_nil_r|].
    cbn [fold_left]. rewrite bool_decide_eq_false_2.
    - rewrite IH; [by rewrite <- app_assoc | by rewrite <- app_assoc].
    - apply NoDup_app in Hnd as (_ & Hcross & _). intros Hin.
      apply (Hcross y Hin), list_elem_of_here. }
  intros Hnd. by apply (Hgen []).
Qed.

(** X22.  [handleImagesChange] stores the new collection and appends to the
    deletions, once each, the ids that were in the collection, are not in
    the new one, and are ids of stored rows: not [featured-existing], not
    starting with [new-] or [video-].  It removes nothing from the
    deletions. *)
Theorem handleImagesChange_deletions (productImages : list MediaItem)
    (imagesToDelete : list string) (newImages : list MediaItem) :
  let out := handleImagesChange productImages imagesToDelete newImages in
  out.1 = newImages
  ∧ ∃ gone,
      out.2 = imagesToDelete ++ gone
      ∧ NoDup gone
      ∧ ∀ id, id ∈ gone
              ↔ id ∈ MediaItem.id <$> productImages
                ∧ (id ∉ MediaItem.id <$> newImages)
                ∧ id ≠ "featured-existing"
                ∧ startsWith id "new-" = false
                ∧ startsWith id "video-" = false.
Proof.
  cbv zeta. unfold handleImagesChange. cbn [fst snd]. split; [done|].
  eexists. split; [reflexivity|].
  destruct (set_order_spec (MediaItem.id <$> productImages) [] (NoDup_nil_2))
    as [Hnd Hin].
  split; [by apply NoDup_filter|].
  intros id. rewrite list_elem_of_filter. unfold set_order. rewrite Hin.
  rewrite elem_of_list_to_set. unfold is_stored_id.
  rewrite !andb_true_iff, !negb_true_iff, bool_decide_eq_false.
  split.
  - intros [[Hnew [[? ?] ?]] [Hnil|Hcur]]; [by apply not_elem_of_nil in Hnil|].
    done.
  - intros (? & ? & ? & ? & ?). split; [done | by right].
Qed.

Lemma removeImage_ids imageId (images : list MediaItem) :
  MediaItem.id <$> removeImage imageId images
  = filter (fun id => id ≠ imageId) (MediaItem.id <$> images).
Proof.
  unfold removeImage.
  assert (MediaItem.id <$> filter (fun img => MediaItem.id img ≠ imageId) images
          = filter (fun id => id ≠ imageId) (MediaItem.id <$> images)) as Hfilter.
  { induction images as [|img images IH]; [done|].
    rewrite fmap_cons. destruct (decide (MediaItem.id img ≠ imageId)).
    - rewrite !filter_cons_True by done. by rewrite fmap_cons, IH.
    - rewrite !filter_cons_False by done. exact IH. }
  destruct (_ && _); [|done].
  destruct (filter _ images) as [|first rest]; [done|]. exact Hfilter.
Qed.

Lemma filter_gone imageId (ids l : list string) :
  NoDup l → (∀ x, x ∈ l → x ∈ ids) →
  filter
    (fun id => (id ∉ (list_to_set (filter (fun id => id ≠ imageId) ids)
                       : gset string))
               ∧ is_stored_id id = true) l
  = if bool_decide (imageId ∈ l) && is_stored_id imageId
    then [imageId] else [].
Proof.
  induction l as [|x l IH]; intros Hl Hsub; [done|].
  apply NoDup_cons in Hl as [Hx Hl].
  assert (∀ y, y ∈ l → y ∈ ids) as Hsub'.
  { intros y Hy. apply Hsub. by apply list_elem_of_further. }
  specialize (IH Hl Hsub').
  destruct (decide (x = imageId)) as [->|Hne].
  - rewrite (bool_decide_eq_true_2 (imageId ∈ imageId :: l))
      by apply list_elem_of_here.
    rewrite (bool_decide_eq_false_2 _ Hx) in IH. cbn [andb] in *.
    destruct (is_stored_id imageId) eqn:Hs.
    + rewrite filter_cons_True; [by rewrite IH|]. split; [|done].
      rewrite elem_of_list_to_set, list_elem_of_filter. by intros [? _].
    + rewrite filter_cons_False; [done|]. intros [_ ?]. congruence.
  - rewrite filter_cons_False.
    + rewrite IH.
      destruct (decide (imageId ∈ l)) as [Hl'|Hl'].
      * rewrite !bool_decide_eq_true_2; [done | by apply list_elem_of_further
                                         | done].
      * rewrite !bool_decide_eq_false_2; [done | | done].
        rewrite elem_of_cons. intros [?|?]; [congruence | done].
    + intros [Hout _]. apply Hout.
      rewrite elem_of_list_to_set, list_elem_of_filter. split; [done|].
      apply Hsub, list_elem_of_here.
Qed.

(** X23.  The deletions that a change made by the manager schedules, for a
    collection with pairwise different ids: choosing the featured image,
    adding files and recropping schedule none; removing an image schedules
    its id when it is the id of a stored row, and nothing when it is not. *)
Theorem handleImagesChange_after_operation (maxImages maxSize : Z)
    (productImages : list MediaItem) (imagesToDelete : list string) :
  NoDup (MediaItem.id <$> productImages) →
  (∀ imageId,
      (handleImagesChange productImages imagesToDelete
         (setFeaturedImage imageId productImages)).2 = imagesToDelete)
  ∧ (∀ uuid objectURL files,
        (handleImagesChange productImages imagesToDelete
           (apply_op maxImages maxSize productImages
              (AddFiles files uuid objectURL))).2 = imagesToDelete)
  ∧ (∀ uuid now objectURL target show blobSize updated,
        crop_onChange
          (handleCropComplete uuid now objectURL (Some target) show
             productImages blobSize) = Some updated →
        (handleImagesChange productImages imagesToDelete updated).2
        = imagesToDelete)
  ∧ (∀ imageId,
        imageId ∈ MediaItem.id <$> productImages →
        (handleImagesChange productImages imagesToDelete
           (removeImage imageId productImages)).2
        = if is_stored_id imageId
          then imagesToDelete ++ [imageId] else imagesToDelete).
Proof.
  intros Hnd.
  assert (∀ newImages,
             (∀ id, id ∈ MediaItem.id <$> productImages →
                    id ∈ MediaItem.id <$> newImages) →
             (handleImagesChange productImages imagesToDelete newImages).2
             = imagesToDelete) as Hkept.
  { intros newImages Hsub. unfold handleImagesChange. cbn [snd].
    rewrite set_order_NoDup by done.
    assert (filter
              (fun id => (id ∉ (list_to_set (MediaItem.id <$> newImages)
                                 : gset string))
                         ∧ is_stored_id id = true)
              (MediaItem.id <$> productImages) = []) as ->.
    2:{ by rewrite app_nil_r. }
    assert (∀ l, (∀ id, id ∈ l → id ∈ MediaItem.id <$> newImages) →
                 filter
                   (fun id => (id ∉ (list_to_set (MediaItem.id <$> newImages)
                                      : gset string))
                              ∧ is_stored_id id = true) l = []) as Hnil.
    { induction l as [|x l IH]; intros Hl; [done|].
      rewrite filter_cons_False.
      - apply IH. intros id Hid. apply Hl. by apply list_elem_of_further.
      - intros [Hout _]. apply Hout, elem_of_list_to_set, Hl.
        apply list_elem_of_here. }
    by apply Hnil. }
  split; [|split; [|split]].
  - intros imageId. apply Hkept. intros id. by rewrite setFeaturedImage_ids.
  - intros uuid objectURL files. apply Hkept. intros x Hx. cbn [apply_op].
    destruct (onChange _) as [combined|] eqn:Hchange; [|done].
    apply handleFileSelect_onChange in Hchange as (valid & _ & ->).
    cbn [default from_option]. unfold id. rewrite fmap_app.
    apply elem_of_app. by left.
  - intros uuid now objectURL target show blobSize updated Hcrop.
    apply Hkept. intros id. cbn in Hcrop. injection Hcrop as <-.
    destruct (recrop_entries_spec (MediaItem.id target)
                (croppedFile uuid blobSize now) objectURL productImages 0)
      as [-> _]. done.
  - intros imageId Hin. unfold handleImagesChange. cbn [snd].
    rewrite set_order_NoDup by done. rewrite removeImage_ids.
    assert (filter
              (fun id => (id ∉ (list_to_set
                                  (filter (fun id => id ≠ imageId)
                                     (MediaItem.id <$> productImages))
                                : gset string))
                         ∧ is_stored_id id = true)
              (MediaItem.id <$> productImages)
            = if is_stored_id imageId then [imageId] else []) as ->.
    2:{ destruct (is_stored_id imageId); [done | by rewrite app_nil_r]. }
    rewrite filter_gone by done.
    by rewrite bool_decide_eq_true_2.
Qed.

Lemma handleImagesChange_after_operation_witness :
  (handleImagesChange
     (load_images (Some "https://cdn/f.png")
        (Some [ImageRow.mk "row-1" "https://cdn/1.png";
               ImageRow.mk "row-2" "https://cdn/2.png"]))
     []
     (removeImage "row-2"
        (load_images (Some "https://cdn/f.png")
           (Some [ImageRow.mk "row-1" "https://cdn/1.png";
                  ImageRow.mk "row-2" "https://cdn/2.png"])))).2
  = ["row-2"].
Proof.
  destruct (handleImagesChange_after_operation 10 5
              (load_images (Some "https://cdn/f.png")
                 (Some [ImageRow.mk "row-1" "https://cdn/1.png";
                        ImageRow.mk "row-2" "https://cdn/2.png"]))
              []) as (_ & _ & _ & Hremove).
  - apply (bool_decide_unpack _). vm_compute. exact I.
  - apply (Hremove "row-2"). apply (bool_decide_unpack _). vm_compute. exact I.
Defined.

(** ** Price tiers *)

Section TierProofs.
Context {Price : Type}.
Implicit Types (tier : PriceTier Price) (tiers sorted : list (PriceTier Price)).

Lemma insert_tier_perm tier sorted :
  insert_tier tier sorted ≡ₚ tier :: sorted.
Proof.
  induction sorted as [|next rest IH]; [done|]. cbn [insert_tier].
  destruct (min_quantity next <? min_quantity tier); [|done].
  rewrite IH. apply perm_swap.
Qed.

Lemma sort_tiers_perm tiers : sort_tiers tiers ≡ₚ tiers.
Proof.
  induction tiers as [|tier tiers IH]; [done|].
  cbn [sort_tiers foldr]. rewrite insert_tier_perm.
  by apply perm_skip.
Qed.

Lemma insert_tier_sorted tier sorted :
  StronglySorted le_min sorted → StronglySorted le_min (insert_tier tier sorted).
Proof.
  induction 1 as [|next rest Hrest IH Hnext]; cbn [insert_tier].
  { repeat constructor. }
  destruct (min_quantity next <? min_quantity tier) eqn:Hlt.
  - apply Z.ltb_lt in Hlt. constructor; [exact IH|].
    rewrite insert_tier_perm. constructor; [|done]. unfold le_min. lia.
  - apply Z.ltb_ge in Hlt. constructor; [by constructor|].
    constructor; [done|]. eapply Forall_impl; [exact Hnext|].
    unfold le_min. intros x Hx. lia.
Qed.

Lemma sort_tiers_sorted tiers : StronglySorted le_min (sort_tiers tiers).
Proof.
  induction tiers as [|tier tiers IH]; [constructor|].
  cbn [sort_tiers foldr]. by apply insert_tier_sorted.
Qed.

(** The map of [onSubmit] over the sorted tiers gives each tier with the
    tier after it. *)
Lemma tier_records_of (id : string) tiers :
  tier_records id tiers = records_of id (sort_tiers tiers).
Proof.
  unfold tier_records. generalize (sort_tiers tiers). intros array.
  assert (∀ pre suf,
             array = pre ++ suf →
             imap
               (fun index tier =>
                  let isLastTier :=
                    bool_decide (Z.of_nat (length pre + index)
                                 = Z.of_nat (length array) - 1) in
                  let nextTier :=
                    if isLastTier then None
                    else array !! (length pre + index + 1)%nat in
                  let maxQuantity :=
                    if isLastTier then None
                    else match nextTier with
                         | Some next => Some (min_quantity next - 1)
                         | None => None
                         end in
                  {| product_id := id;
                     record_min_quantity := min_quantity tier;
                     record_max_quantity := maxQuantity;
                     record_unit_price := unit_price tier;
                     record_discounted_unit_price :=
                       discounted_unit_price tier |}) suf
             = records_of id suf) as Hgen.
  { intros pre suf. revert pre.
    induction suf as [|tier rest IH]; intros pre Harray; [done|].
    rewrite imap_cons. cbn [records_of]. f_equal.
    - cbv zeta. rewrite Nat.add_0_r. f_equal.
      rewrite Harray, length_app. cbn [length].
      destruct rest as [|next rest].
      + rewrite bool_decide_eq_true_2; [done|]. cbn [length]. lia.
      + rewrite bool_decide_eq_false_2 by (cbn [length]; lia).
        rewrite lookup_app_r by lia.
        replace (length pre + 1 - length pre)%nat with 1%nat by lia. done.
    - rewrite <- (IH (pre ++ [tier])).
      2:{ by rewrite <- app_assoc. }
      apply imap_ext. intros i x _. cbn [compose].
      rewrite length_app. cbn [length].
      by replace (length pre + 1 + i)%nat with (length pre + S i)%nat by lia. }
  rewrite <- (Hgen [] array eq_refl). apply imap_ext. by intros i x _.
Qed.

Lemma records_of_lookup (id : string) sorted (j : nat) (r : TierRecord Price) :
  records_of id sorted !! j = Some r →
  ∃ tier, sorted !! j = Some tier
          ∧ record_min_quantity r = min_quantity tier
          ∧ record_max_quantity r
            = (fun next => min_quantity next - 1) <$> sorted !! S j.
Proof.
  revert j. induction sorted as [|tier rest IH]; intros j Hj; [done|].
  destruct j as [|j].
  - cbn in Hj. injection Hj as <-. exists tier. by destruct rest.
  - cbn in Hj. apply IH in Hj as (t & Ht & Hmin & Hmax). by exists t.
Qed.

Lemma records_of_length (id : string) sorted :
  length (records_of id sorted) = length sorted.
Proof. induction sorted as [|tier rest IH]; [done|]. cbn. by rewrite IH. Qed.

(** Over sorted tiers, a quantity that is at least the first minimum falls
    in the range of one record, and only one. *)
Lemma records_of_cover (id : string) sorted (q : Z) :
  StronglySorted le_min sorted →
  (∃ tier, head sorted = Some tier ∧ min_quantity tier <= q) →
  ∃ i r,
    records_of id sorted !! i = Some r
    ∧ in_range q r
    ∧ ∀ j r', records_of id sorted !! j = Some r' → in_range q r' → j = i.
Proof.
  induction 1 as [|tier rest Hrest IH Hall]; intros (first & Hhead & Hq);
    [done|].
  cbn in Hhead. injection Hhead as <-.
  destruct rest as [|next rest].
  { exists 0%nat. eexists. split; [reflexivity|]. split; [by split|].
    intros [|j] r' Hj _; [done|]. done. }
  destruct (decide (q < min_quantity next)) as [Hlt|Hge].
  - exists 0%nat. eexists. split; [reflexivity|]. split.
    { split; cbn; lia. }
    intros [|j] r' Hj Hr'; [done|]. exfalso.
    change (records_of id (next :: rest) !! j = Some r') in Hj.
    apply records_of_lookup in Hj as (t & Ht & Hmin & _).
    destruct Hr' as [Hlow _]. rewrite Hmin in Hlow.
    apply StronglySorted_inv in Hrest as [_ Hnext].
    destruct j as [|j].
    + cbn in Ht. injection Ht as <-. lia.
    + cbn in Ht. rewrite Forall_forall in Hnext.
      assert (le_min next t) as Hle.
      { apply Hnext. by eapply list_elem_of_lookup_2. }
      unfold le_min in Hle. lia.
  - destruct IH as (i & r & Hi & Hr & Huniq).
    { exists next. split; [done | lia]. }
    exists (S i), r. split; [exact Hi|]. split; [done|].
    intros [|j] r' Hj Hr'.
    + cbn in Hj. injection Hj as <-. destruct Hr' as [_ Hhigh].
      cbn in Hhigh. lia.
    + f_equal. apply (Huniq j r'); [|done]. exact Hj.
Qed.

(** X24.  The tier records [onSubmit] inserts: one per tier, with the same
    minimum quantities; in increasing order of minimum quantity; each
    record but the last ends one below the minimum of the next, and the
    last has no maximum; so every quantity that is at least the minimum of
    some tier falls in the range of exactly one record. *)
Theorem tier_records_ranges (id : string) tiers :
  let records := tier_records id tiers in
  record_min_quantity <$> records ≡ₚ min_quantity <$> tiers
  ∧ (∀ i r next,
        records !! i = Some r → records !! S i = Some next →
        record_min_quantity r <= record_min_quantity next
        ∧ record_max_quantity r = Some (record_min_quantity next - 1))
  ∧ (∀ r, last records = Some r → record_max_quantity r = None)
  ∧ (∀ q, (∃ tier, tier ∈ tiers ∧ min_quantity tier <= q) →
          ∃ i r,
            records !! i = Some r
            ∧ in_range q r
            ∧ ∀ j r', records !! j = Some r' → in_range q r' → j = i).
Proof.
  cbv zeta. rewrite tier_records_of.
  pose proof (sort_tiers_sorted tiers) as Hsorted.
  pose proof (sort_tiers_perm tiers) as Hperm.
  split; [|split; [|split]].
  - assert (∀ l, record_min_quantity <$> records_of id l
                 = min_quantity <$> l) as ->.
    { induction l as [|t l IH]; [done|].
      cbn [records_of]. rewrite !fmap_cons. cbn. by rewrite IH. }
    by apply fmap_Permutation.
  - intros i r next Hi Hnext.
    apply records_of_lookup in Hi as (t & Ht & Hmin & Hmax).
    apply records_of_lookup in Hnext as (u & Hu & Hmin' & _).
    rewrite Hu in Hmax. cbn in Hmax. rewrite Hmin, Hmin', Hmax.
    split; [|done].
    clear -Hsorted Ht Hu. revert i Ht Hu.
    induction Hsorted as [|a l Hl IH Ha]; intros i Ht Hu; [done|].
    destruct i as [|i].
    + cbn in Ht, Hu. injection Ht as <-. rewrite Forall_forall in Ha.
      apply Ha. by eapply list_elem_of_lookup_2.
    + by apply (IH i).
  - intros r Hlast. rewrite last_lookup, records_of_length in Hlast.
    apply records_of_lookup in Hlast as (t & Ht & _ & Hmax).
    rewrite Hmax. rewrite lookup_ge_None_2; [done|].
    apply lookup_lt_Some in Ht. lia.
  - intros q (tier & Hin & Hq). apply records_of_cover; [done|].
    rewrite <- Hperm in Hin.
    destruct (sort_tiers tiers) as [|first rest]; [by apply not_elem_of_nil in Hin|].
    exists first. split; [done|].
    apply elem_of_cons in Hin as [->|Hin]; [done|].
    apply StronglySorted_inv in Hsorted as [_ Hfirst].
    rewrite Forall_forall in Hfirst.
    assert (le_min first tier) as Hle by (by apply Hfirst).
    unfold le_min in Hle. lia.
Qed.
End TierProofs.

Lemma tier_records_ranges_witness :
  ∃ i r,
    tier_records "p1" sample_tiers !! i = Some r
    ∧ in_range 12 r
    ∧ ∀ j r', tier_records "p1" sample_tiers !! j = Some r' →
              in_range 12 r' → j = i.
Proof.
  apply (tier_records_ranges "p1" sample_tiers).
  exists (mkPriceTier "t1" 1 None 1000%nat None).
  split; [|done]. apply list_elem_of_further, list_elem_of_here.
Defined.

Example tier_records_sample :
  (fun r => (record_min_quantity r, record_max_quantity r))
    <$> tier_records "p1" sample_tiers
  = [(1, Some 9); (10, Some 49); (50, None)].
Proof. reflexivity. Qed.

(** ** The size selector *)

Lemma handleSizeToggle_selected (sizes : list string) (size : string) :
  size ∈ sizes →
  handleSizeToggle sizes size = filter (fun s => s ≠ size) sizes.
Proof. intros H. unfold handleSizeToggle. by rewrite bool_decide_eq_true_2. Qed.

Lemma handleSizeToggle_unselected (sizes : list string) (size : string) :
  size ∉ sizes → handleSizeToggle sizes size = sizes ++ [size].
Proof. intros H. unfold handleSizeToggle. by rewrite bool_decide_eq_false_2. Qed.

(** X25.  A toggle flips whether the size is selected and changes nothing for
    the other sizes; a selection without repetitions stays without; and
    toggling a size that was not selected twice gives back the selection. *)
Theorem handleSizeToggle_flips (sizes : list string) (size : string) :
  (size ∈ handleSizeToggle sizes size ↔ size ∉ sizes)
  ∧ (∀ other, other ≠ size →
              (other ∈ handleSizeToggle sizes size ↔ other ∈ sizes))
  ∧ (NoDup sizes → NoDup (handleSizeToggle sizes size))
  ∧ (size ∉ sizes →
     handleSizeToggle (handleSizeToggle sizes size) size = sizes).
Proof.
  destruct (decide (size ∈ sizes)) as [Hin|Hout].
  - rewrite !(handleSizeToggle_selected sizes size Hin).
    split; [|split; [|split]].
    + split; [|done]. intros H. by apply list_elem_of_filter in H as [? _].
    + intros other Hne. rewrite list_elem_of_filter. split; [by intros [_ ?]|].
      done.
    + intros Hnd. by apply NoDup_filter.
    + done.
  - rewrite !(handleSizeToggle_unselected sizes size Hout).
    split; [|split; [|split]].
    + split; [done|]. intros _. apply elem_of_app. right.
      apply list_elem_of_here.
    + intros other Hne. rewrite elem_of_app, list_elem_of_singleton.
      split; [|by left]. intros [?|?]; [done | congruence].
    + intros Hnd. apply NoDup_app. split; [done|].
      split; [|apply NoDup_singleton].
      intros x Hx Hxs. apply list_elem_of_singleton in Hxs. by subst.
    + intros _. rewrite handleSizeToggle_selected
        by (apply elem_of_app; right; apply list_elem_of_here).
      rewrite filter_app, filter_cons_False, filter_nil, app_nil_r
        by (intros H; by apply H).
      clear -Hout. induction sizes as [|s sizes IH]; [done|].
      apply not_elem_of_cons in Hout as [Hne Hout].
      rewrite filter_cons_True by congruence. by rewrite IH.
Qed.

Lemma handleSizeToggle_flips_witness :
  handleSizeToggle (handleSizeToggle ["P"; "M"] "GG") "GG" = ["P"; "M"].
Proof.
  apply (handleSizeToggle_flips ["P"; "M"] "GG").
  intros Hin.
  repeat (apply elem_of_cons in Hin as [Hin|Hin]; [discriminate Hin|]).
  by apply not_elem_of_nil in Hin.
Defined.

(** X26.  Adding a custom size, whatever [trim] does: the sizes are kept, in
    order, with at most the trimmed text added at the end; the text is
    added only when it is not empty, not yet a size, and fewer than ten
    sizes are there, and then the input is cleared; so a list of at most
    ten sizes, without repetition and without the empty text, stays so. *)
Theorem handleAddCustomSize_bounds (trim : string → string)
    (sizes : list string) (customSize : string) :
  let out := handleAddCustomSize trim sizes customSize in
  (out = (sizes, customSize)
   ∨ out = (sizes ++ [trim customSize], "")
     ∧ trim customSize ≠ "" ∧ (trim customSize ∉ sizes)
     ∧ (length sizes < 10)%nat)
  ∧ ((length sizes <= 10)%nat → (length out.1 <= 10)%nat)
  ∧ (NoDup sizes → NoDup out.1)
  ∧ ("" ∉ sizes → "" ∉ out.1).
Proof.
  cbv zeta. unfold handleAddCustomSize.
  destruct (decide (trim customSize = "")) as [Hempty|Hfull].
  { rewrite (bool_decide_eq_true_2 _ Hempty). cbn.
    split; [by left|]. split; [done|]. split; done. }
  rewrite (bool_decide_eq_false_2 _ Hfull). cbn [negb andb].
  destruct (decide (trim customSize ∈ sizes)) as [Hin|Hout].
  { rewrite (bool_decide_eq_true_2 _ Hin). cbn.
    split; [by left|]. split; [done|]. split; done. }
  rewrite (bool_decide_eq_false_2 _ Hout). cbn [negb andb].
  destruct (Z.of_nat (length sizes) <? 10) eqn:Hlen.
  - apply Z.ltb_lt in Hlen. cbn [fst snd]. split; [|split; [|split]].
    + right. split; [done|]. split; [done|]. split; [done | lia].
    + intros _. rewrite length_app. cbn. lia.
    + intros Hnd. apply NoDup_app. split; [done|].
      split; [|apply NoDup_singleton].
      intros x Hx Hxs. apply list_elem_of_singleton in Hxs. by subst.
    + intros Hno H. apply elem_of_app in H as [?|H]; [done|].
      apply list_elem_of_singleton in H. congruence.
  - cbn. split; [by left|]. split; [done|]. split; done.
Qed.

Lemma handleAddCustomSize_bounds_witness :
  (length (handleAddCustomSize (fun s => s) ["P"; "M"] "4XL").1 <= 10)%nat.
Proof.
  apply (handleAddCustomSize_bounds (fun s => s) ["P"; "M"] "4XL").
  cbn. lia.
Defined.

(** ** What a save uploads *)




(** ** What adding files appends *)

Lemma Forall_imap_all {A B} (P : B → Prop) (l : list A) :
  ∀ m : nat → A → B, (∀ i x, P (m i x)) → Forall P (imap m l).
Proof.
  induction l as [|x l IH]; intros m Hm; [constructor|].
  rewrite imap_cons. constructor; [apply Hm|].
  apply IH. intros i y. apply Hm.
Qed.

Lemma new_images_shape uuid objectURL (images : list MediaItem)
    (valid : list File) :
  Forall (fun img => startsWith (MediaItem.id img) "new-" = true
                     ∧ is_Some (MediaItem.file img)
                     ∧ is_stored_id (MediaItem.id img) = false)
    (imap (new_image uuid objectURL images) valid).
Proof.
  apply Forall_imap_all. intros i f.
  assert (startsWith ("new-" +:+ uuid i) "new-" = true) as Hnew.
  { apply startsWith_app. by eexists. }
  cbn [new_image MediaItem.id MediaItem.file]. split; [done|]. split.
  - by eexists.
  - unfold is_stored_id. rewrite Hnew. cbn [negb].
    by rewrite andb_false_r.
Qed.

(** X28.  When adding files changes the collection, the entries that were there
    are kept as they were, in order, and after them comes one entry for
    each valid file of the slice, in order; each new entry is pending, has
    an id that starts with [new-], which is never the id of a stored row,
    and the first of them is featured exactly when the collection was
    empty. *)
Theorem handleFileSelect_appends (maxImages maxSize : Z)
    (uuid objectURL : nat → string) (images : list MediaItem)
    (files : list File) (combined : list MediaItem) :
  onChange (handleFileSelect maxImages maxSize uuid objectURL false images
              (Some files)) = Some combined →
  ∃ added,
    combined = images ++ added
    ∧ added ≠ []
    ∧ pending_files added
      = validFiles
          (validateFiles (slice_to (maxImages - Z.of_nat (length images)) files)
             (validation_options maxSize images))
    ∧ Forall (fun img => startsWith (MediaItem.id img) "new-" = true
                         ∧ is_Some (MediaItem.file img)
                         ∧ is_stored_id (MediaItem.id img) = false) added
    ∧ featured_count added = if decide (images = []) then 1%nat else 0%nat.
Proof.
  intros Hchange.
  apply handleFileSelect_onChange_exact in Hchange as [Hne ->].
  eexists. split; [reflexivity|]. split; [|split; [|split]].
  - intros Hnil. apply (f_equal length) in Hnil.
    rewrite length_imap in Hnil. apply Hne. by apply nil_length_inv.
  - by apply pending_files_imap.
  - apply new_images_shape.
  - by apply featured_count_new_images.
Qed.

Lemma handleFileSelect_appends_witness :
  ∃ added,
    [stored "a" true; new_image uuid_n blob_n [stored "a" true] 0 photo_png]
    = [stored "a" true] ++ added
    ∧ added ≠ []
    ∧ pending_files added
      = validFiles
          (validateFiles
             (slice_to (10 - Z.of_nat (length [stored "a" true])) [photo_png])
             (validation_options 5 [stored "a" true]))
    ∧ Forall (fun img => startsWith (MediaItem.id img) "new-" = true
                         ∧ is_Some (MediaItem.file img)
                         ∧ is_stored_id (MediaItem.id img) = false) added
    ∧ featured_count added
      = if decide ([stored "a" true] = []) then 1%nat else 0%nat.
Proof.
  apply (handleFileSelect_appends 10 5 uuid_n blob_n [stored "a" true]
           [photo_png]).
  reflexivity.
Defined.
